(** * PDC distributed chat: the two gRPC workers and the client's base64 encoder

    A shallow embedding of

    - [translation-service/server.js]: [TRANSLATIONS], [SUPPORTED_LANGUAGES],
      [translateText], [handleTranslateText], [handleTranslateBatch],
      [handleGetSupportedLanguages];
    - [audio-service/server.js]: [generateTranslatedAudio], [handleProcessAudio];
    - [client/src/services/api.js]: [btoa], [generateDummyAudio].

    Conventions of the embedding.

    - A JavaScript string that travels through the services is represented by
      its UTF-8 encoding, one [ascii] per byte, which is the form protobuf
      carries it in and the form [Buffer.from(str)] produces.  Equality,
      concatenation, splitting at the space character and joining commute with
      that encoding.  The client's [btoa] reads UTF-16 code units with
      [charCodeAt], so module [Client] represents its argument as the list of
      its code units.
    - [Date.now()] is the only ambient state the workers read.  A [World] is
      the sequence of values the successive calls will return, and the code
      that reads the clock lives in the monad [M] that threads the world and
      propagates thrown exceptions.
    - [console.log] output is not part of the model, but the evaluation of its
      arguments is, where it can throw.
    - An RPC handler ends by calling the [callback] it was given.  Its model
      returns the arguments of that call; a handler that throws has not called
      it. *)

From stdpp Require Import gmap strings list.
From Stdlib Require Import ZArith Ascii Lia.

Local Open Scope Z_scope.

(** ** The host: exceptions, the clock, values and plain objects *)

Module JS.

Record JSError := mkError { name : string; message : string }.

Inductive outcome (A : Type) : Type :=
| Returned (a : A)
| Thrown (e : JSError).
Arguments Returned {A} a.
Arguments Thrown {A} e.

(** The readings of [Date.now()], in the order they will be taken. *)
Definition World : Type := nat → Z.

Definition M (A : Type) : Type := World → outcome A * World.

Definition ret {A} (a : A) : M A := fun w => (Returned a, w).

Definition bind {A B} (m : M A) (k : A → M B) : M B :=
  fun w => match m w with
           | (Returned a, w') => k a w'
           | (Thrown e, w') => (Thrown e, w')
           end.

Definition throw {A} (e : JSError) : M A := fun w => (Thrown e, w).

(** [try { body } catch (error) { handler }] *)
Definition try_catch {A} (body : M A) (handler : JSError → M A) : M A :=
  fun w => match body w with
           | (Returned a, w') => (Returned a, w')
           | (Thrown e, w') => handler e w'
           end.

Definition Date_now : M Z := fun w => (Returned (w 0%nat), fun n => w (S n)).

(** A clock that never runs backwards. *)
Definition monotone (w : World) : Prop := ∀ n, w n ≤ w (S n).

Notation "'let*' x ':=' m 'in' k" := (bind m (fun x => k))
  (at level 10, x name, m at level 100, k at level 200).

(** [requests.map(f)] for a callback [f] that reads the clock. *)
Fixpoint mapM {A B} (f : A → M B) (l : list A) : M (list B) :=
  match l with
  | [] => ret []
  | x :: l' => let* y := f x in let* ys := mapM f l' in ret (y :: ys)
  end.

(** The time value of a [Date] is a legal instant only up to 8.64e15 ms from
    the epoch; [new Date(tv).toISOString()] throws a [RangeError] beyond.  The
    text it returns is only logged. *)
Definition MAX_TIME_VALUE : Z := 8640000000000000.

Definition Date_toISOString (tv : Z) : M unit :=
  if Z.abs tv <=? MAX_TIME_VALUE then ret tt
  else throw (mkError "RangeError" "Invalid time value").

(** The values a property read can produce here: [undefined], a string, or
    one of the built-in members every plain object inherits from
    [Object.prototype]. *)
Inductive jsval : Type :=
| VUndefined
| VStr (s : string)
| VBuiltin (p : string).

(** The own property names of [Object.prototype] in Node.js. *)
Definition Object_prototype : list string :=
  [ "constructor"; "__defineGetter__"; "__defineSetter__"; "hasOwnProperty";
    "__lookupGetter__"; "__lookupSetter__"; "isPrototypeOf";
    "propertyIsEnumerable"; "toString"; "valueOf"; "__proto__";
    "toLocaleString" ]%string.

(** [o[k]] on an object literal of strings: the own property if there is one,
    else the inherited one, else [undefined]. *)
Definition get (o : gmap string string) (k : string) : jsval :=
  match o !! k with
  | Some v => VStr v
  | None => if bool_decide (k ∈ Object_prototype) then VBuiltin k else VUndefined
  end.

(** ToBoolean: the empty string and [undefined] are falsy, functions and
    objects are truthy. *)
Definition truthy (v : jsval) : bool :=
  match v with
  | VUndefined => false
  | VStr s => negb (String.eqb s EmptyString)
  | VBuiltin _ => true
  end.

(** ToString, as V8 prints built-ins: [Object.prototype.constructor] is the
    function [Object], [__proto__] reads as the prototype object itself, the
    others are native functions named after the property. *)
Definition toStr (v : jsval) : string :=
  match v with
  | VUndefined => "undefined"
  | VStr s => s
  | VBuiltin p =>
      if String.eqb p "__proto__" then "[object Object]"
      else if String.eqb p "constructor" then "function Object() { [native code] }"
      else "function " +:+ p +:+ "() { [native code] }"
  end%string.

(** [s.split(' ')] *)
Fixpoint split (s : string) : list string :=
  match s with
  | EmptyString => [EmptyString]
  | String c s' =>
      if Ascii.eqb c " "%char then EmptyString :: split s'
      else match split s' with
           | w :: ws => String c w :: ws
           | [] => [String c EmptyString]
           end
  end.

(** Whether the byte [a] occurs in [s]. *)
Fixpoint has_char (a : ascii) (s : string) : bool :=
  match s with
  | EmptyString => false
  | String c s' => Ascii.eqb c a || has_char a s'
  end.

(** The text [Array.prototype.join] gives an element: nothing for
    [undefined], ToString otherwise. *)
Definition join_item (v : jsval) : string :=
  match v with
  | VUndefined => EmptyString
  | _ => toStr v
  end.

(** [l.join(sep)], on the texts of the elements *)
Fixpoint join (sep : string) (l : list string) : string :=
  match l with
  | [] => EmptyString
  | [x] => x
  | x :: l' => x +:+ sep +:+ join sep l'
  end.

(** One white-space or line-terminator character at the head of a string, in
    UTF-8: TAB, LF, VT, FF, CR, SP, U+00A0, U+1680, U+2000..U+200A, U+2028,
    U+2029, U+202F, U+205F, U+3000, U+FEFF.  Returns the rest of the string. *)
Definition strip_space (s : string) : option string :=
  match s with
  | String c s1 =>
      let n := Ascii.nat_of_ascii c in
      if ((9 <=? n) && (n <=? 13))%nat || (n =? 32)%nat then Some s1
      else match s1 with
           | String c2 s2 =>
               let n2 := Ascii.nat_of_ascii c2 in
               if ((n =? 194) && (n2 =? 160))%nat then Some s2
               else match s2 with
                    | String c3 s3 =>
                        let n3 := Ascii.nat_of_ascii c3 in
                        if ((n =? 225) && (n2 =? 154) && (n3 =? 128))%nat
                           || ((n =? 226) && (n2 =? 128)
                               && (((128 <=? n3) && (n3 <=? 138))
                                   || (n3 =? 168) || (n3 =? 169) || (n3 =? 175)))%nat
                           || ((n =? 226) && (n2 =? 129) && (n3 =? 159))%nat
                           || ((n =? 227) && (n2 =? 128) && (n3 =? 128))%nat
                           || ((n =? 239) && (n2 =? 187) && (n3 =? 191))%nat
                        then Some s3 else None
                    | EmptyString => None
                    end
           | EmptyString => None
           end
  | EmptyString => None
  end.

Fixpoint trimStart_fuel (fuel : nat) (s : string) : string :=
  match fuel with
  | O => s
  | S fuel' => match strip_space s with
               | Some s' => trimStart_fuel fuel' s'
               | None => s
               end
  end.

(** Every stripped character is at least one byte, so the length is fuel
    enough. *)
Definition trimStart (s : string) : string := trimStart_fuel (String.length s) s.

Fixpoint trimEnd (s : string) : string :=
  match s with
  | EmptyString => EmptyString
  | String c s' =>
      match trimStart s with
      | EmptyString => EmptyString
      | _ => String c (trimEnd s')
      end
  end.

(** [s.trim()] *)
Definition trim (s : string) : string := trimEnd (trimStart s).

(** The arguments a handler passes to [callback(error, response)]. *)
Inductive callback_args (R : Type) : Type :=
| Callback (error : option JSError) (response : option R).
Arguments Callback {R} error response.

(** [String.prototype.toLowerCase] and [toUpperCase] follow the Unicode case
    tables of the engine, which the repository does not contain: the embedding
    is parametric in them. *)
Class Engine : Type := {
  toLowerCase : string → string;
  toUpperCase : string → string
}.

(** The case mappings restricted to the letters A-Z and a-z; every other byte
    is kept.  This is what the engine computes on text whose cased letters are
    all ASCII, and it is the instance the examples run on. *)
Definition ascii_lower (c : ascii) : ascii :=
  let n := Ascii.nat_of_ascii c in
  if ((65 <=? n) && (n <=? 90))%nat then Ascii.ascii_of_nat (n + 32) else c.

Definition ascii_upper (c : ascii) : ascii :=
  let n := Ascii.nat_of_ascii c in
  if ((97 <=? n) && (n <=? 122))%nat then Ascii.ascii_of_nat (n - 32) else c.

Fixpoint map_string (f : ascii → ascii) (s : string) : string :=
  match s with
  | EmptyString => EmptyString
  | String c s' => String (f c) (map_string f s')
  end.

Definition ascii_engine : Engine :=
  {| toLowerCase := map_string ascii_lower; toUpperCase := map_string ascii_upper |}.

(** [Math.floor(128 + 127 * Math.sin(i * 0.01))] (the audio worker) and
    [Math.floor(128 + 127 * Math.sin(i * 0.1))] (the client), as functions of
    the index [i].  Both are computed in IEEE double arithmetic, which the
    embedding does not cover: the two sample functions are parameters. *)
Class Waveforms : Type := {
  wave_0_01 : nat → Z;
  wave_0_1 : nat → Z
}.

(** The sample functions that are 128 everywhere, the value of both waveforms
    at index 0; the instance stands in where an example needs one. *)
Definition flat_wave : Waveforms :=
  {| wave_0_01 := fun _ => 128; wave_0_1 := fun _ => 128 |}.

(** A byte array ([Buffer], [Uint8Array]) is the list of its elements. *)
Definition Buffer_alloc (size : nat) : list Z := replicate size 0.

(** [buf[i] = v]: the element keeps [v] modulo 256; an index out of range is
    ignored. *)
Definition Buffer_set (buf : list Z) (i : nat) (v : Z) : list Z :=
  <[i := v mod 256]> buf.

(** [for (let i = 0; i < size; i++) buf[i] = f(i)] *)
Definition fill (f : nat → Z) (size : nat) (buf : list Z) : list Z :=
  foldl (fun b i => Buffer_set b i (f i)) buf (seq 0 size).

(** [Buffer.from(str)]: the UTF-8 bytes of the string. *)
Fixpoint Buffer_from (s : string) : list Z :=
  match s with
  | EmptyString => []
  | String c s' => Z.of_nat (Ascii.nat_of_ascii c) :: Buffer_from s'
  end.

End JS.

(** ** translation-service/server.js *)

Module Translation.
Import JS.
Local Open Scope string_scope.
Local Open Scope Z_scope.

(** The object literal [TRANSLATIONS]; no key occurs twice in any of its
    objects, so the order of the entries is immaterial. *)
Definition en_es : gmap string string :=
  list_to_map
    [ ("hello", "hola"); ("goodbye", "adiós"); ("good morning", "buenos días");
      ("good night", "buenas noches"); ("how are you", "cómo estás");
      ("thank you", "gracias"); ("please", "por favor"); ("yes", "sí");
      ("no", "no"); ("welcome", "bienvenido"); ("friend", "amigo");
      ("love", "amor"); ("water", "agua"); ("food", "comida"); ("help", "ayuda");
      ("i am fine", "estoy bien"); ("what is your name", "cuál es tu nombre");
      ("my name is", "mi nombre es"); ("nice to meet you", "mucho gusto");
      ("see you later", "hasta luego") ].

Definition en_fr : gmap string string :=
  list_to_map
    [ ("hello", "bonjour"); ("goodbye", "au revoir"); ("good morning", "bonjour");
      ("good night", "bonne nuit"); ("how are you", "comment allez-vous");
      ("thank you", "merci"); ("please", "s'il vous plaît"); ("yes", "oui");
      ("no", "non"); ("welcome", "bienvenue"); ("friend", "ami");
      ("love", "amour"); ("water", "eau"); ("food", "nourriture"); ("help", "aide");
      ("i am fine", "je vais bien");
      ("what is your name", "comment vous appelez-vous");
      ("my name is", "je m'appelle"); ("nice to meet you", "enchanté");
      ("see you later", "à plus tard") ].

Definition en_de : gmap string string :=
  list_to_map
    [ ("hello", "hallo"); ("goodbye", "auf wiedersehen");
      ("good morning", "guten morgen"); ("good night", "gute nacht");
      ("how are you", "wie geht es dir"); ("thank you", "danke");
      ("please", "bitte"); ("yes", "ja"); ("no", "nein");
      ("welcome", "willkommen"); ("friend", "freund"); ("love", "liebe");
      ("water", "wasser"); ("food", "essen"); ("help", "hilfe");
      ("i am fine", "mir geht es gut"); ("what is your name", "wie heißt du");
      ("my name is", "ich heiße"); ("nice to meet you", "freut mich");
      ("see you later", "bis später") ].

Definition en_ur : gmap string string :=
  list_to_map
    [ ("hello", "السلام علیکم"); ("goodbye", "خدا حافظ");
      ("good morning", "صبح بخیر"); ("good night", "شب بخیر");
      ("how are you", "آپ کیسے ہیں"); ("thank you", "شکریہ");
      ("please", "براہ کرم"); ("yes", "ہاں"); ("no", "نہیں");
      ("welcome", "خوش آمدید"); ("friend", "دوست"); ("love", "محبت");
      ("water", "پانی"); ("food", "کھانا"); ("help", "مدد");
      ("i am fine", "میں ٹھیک ہوں"); ("what is your name", "آپ کا نام کیا ہے");
      ("my name is", "میرا نام ہے");
      ("nice to meet you", "آپ سے مل کر خوشی ہوئی");
      ("see you later", "پھر ملیں گے") ].

Definition es_en : gmap string string :=
  list_to_map
    [ ("hola", "hello"); ("adiós", "goodbye"); ("buenos días", "good morning");
      ("buenas noches", "good night"); ("cómo estás", "how are you");
      ("gracias", "thank you"); ("por favor", "please"); ("sí", "yes");
      ("no", "no"); ("bienvenido", "welcome") ].

Definition fr_en : gmap string string :=
  list_to_map
    [ ("bonjour", "hello"); ("au revoir", "goodbye"); ("bonne nuit", "good night");
      ("merci", "thank you"); ("oui", "yes"); ("non", "no");
      ("bienvenue", "welcome") ].

Definition TRANSLATIONS : gmap string (gmap string string) :=
  list_to_map
    [ ("en-es", en_es); ("en-fr", en_fr); ("en-de", en_de); ("en-ur", en_ur);
      ("es-en", es_en); ("fr-en", fr_en) ].

Record Language := mkLanguage { code : string; lang_name : string }.

Definition SUPPORTED_LANGUAGES : list Language :=
  [ mkLanguage "en" "English"; mkLanguage "es" "Spanish";
    mkLanguage "fr" "French"; mkLanguage "de" "German";
    mkLanguage "ur" "Urdu" ].

Record TranslateResult := mkResult { translated : jsval; processingTime : Z }.

Section WithEngine.
Context {engine : Engine}.

(** [`${sourceLang}-${targetLang}`] *)
Definition dict_key (sourceLang targetLang : string) : string :=
  sourceLang +:+ "-" +:+ targetLang.

(** [TRANSLATIONS[key] || {}].  The key contains a dash, which no property
    name of [Object.prototype] does, so only own properties can answer. *)
Definition mappings_of (sourceLang targetLang : string) : gmap string string :=
  default ∅ (TRANSLATIONS !! dict_key sourceLang targetLang).

(** [mappings[word] || word] *)
Definition translate_word (mappings : gmap string string) (word : string) : jsval :=
  if truthy (get mappings word) then get mappings word else VStr word.

Definition translateText (text sourceLang targetLang : string) : M TranslateResult :=
  let* startTime := Date_now in
  if bool_decide (sourceLang = targetLang) then
    let* now := Date_now in
    ret {| translated := VStr text; processingTime := now - startTime |}
  else
    let mappings := mappings_of sourceLang targetLang in
    let normalizedText := trim (toLowerCase text) in
    if truthy (get mappings normalizedText) then
      let* now := Date_now in
      ret {| translated := get mappings normalizedText;
             processingTime := now - startTime |}
    else
      let words := split normalizedText in
      let translatedWords := map (translate_word mappings) words in
      let result := join " " (map join_item translatedWords) in
      let translated :=
        if String.eqb result normalizedText
        then VStr ("[" +:+ toUpperCase targetLang +:+ "] " +:+ text)
        else VStr result in
      let* now := Date_now in
      ret {| translated := translated; processingTime := now - startTime |}.

(** [TextRequest]; [timestamp] is an int64, which the loader hands over as its
    decimal text and [parseInt] reads back as the nearest double.  The rounding
    never moves a value across [MAX_TIME_VALUE], itself a double, so the
    integer decides whether the [Date] is a legal instant. *)
Record TextRequest := mkTextRequest {
  text : string;
  source_language : string;
  target_language : string;
  user_id : string;
  timestamp : Z
}.

Record TextResponse := mkTextResponse {
  original_text : string;
  translated_text : jsval;
  resp_source_language : string;
  resp_target_language : string;
  success : bool;
  error_message : string;
  processing_time_ms : Z
}.

Record BatchTextResponse := mkBatchTextResponse {
  responses : list TextResponse;
  total_processing_time_ms : Z
}.

Record LanguagesResponse := mkLanguagesResponse { languages : list Language }.

Definition handleTranslateText (request : TextRequest) : M (callback_args TextResponse) :=
  let* startTime := Date_now in
  (* the banner logged before [try]; its last line formats the timestamp *)
  let* _ := Date_toISOString (timestamp request) in
  try_catch
    (let* r := translateText (text request) (source_language request)
                 (target_language request) in
     let* now := Date_now in
     ret (Callback None (Some
       {| original_text := text request;
          translated_text := translated r;
          resp_source_language := source_language request;
          resp_target_language := target_language request;
          success := true;
          error_message := EmptyString;
          processing_time_ms := now - startTime |})))
    (fun error =>
     let* now := Date_now in
     ret (Callback None (Some
       {| original_text := text request;
          translated_text := VStr EmptyString;
          resp_source_language := source_language request;
          resp_target_language := target_language request;
          success := false;
          error_message := message error;
          processing_time_ms := now - startTime |}))).

Definition translate_one (req : TextRequest) : M TextResponse :=
  let* r := translateText (text req) (source_language req) (target_language req) in
  ret {| original_text := text req;
         translated_text := translated r;
         resp_source_language := source_language req;
         resp_target_language := target_language req;
         success := true;
         error_message := EmptyString;
         processing_time_ms := processingTime r |}.

Definition handleTranslateBatch (requests : list TextRequest)
  : M (callback_args BatchTextResponse) :=
  let* startTime := Date_now in
  let* responses := mapM translate_one requests in
  let* now := Date_now in
  let totalTime := now - startTime in
  ret (Callback None (Some
    {| responses := responses; total_processing_time_ms := totalTime |})).

Definition handleGetSupportedLanguages (call : unit)
  : M (callback_args LanguagesResponse) :=
  ret (Callback None (Some {| languages := SUPPORTED_LANGUAGES |})).

End WithEngine.

End Translation.

(** ** audio-service/server.js *)

Module Audio.
Import JS.
Local Open Scope string_scope.
Local Open Scope Z_scope.

Record AudioResult := mkAudioResult {
  translatedAudio : list Z;
  processingTime : Z;
  originalSize : nat;
  processedSize : nat
}.

Record AudioRequest := mkAudioRequest {
  audio_data : list Z;
  audio_format : string;
  source_language : string;
  target_language : string;
  user_id : string;
  sample_rate : Z;
  channels : Z
}.

Record AudioResponse := mkAudioResponse {
  translated_audio : list Z;
  resp_audio_format : string;
  resp_source_language : string;
  resp_target_language : string;
  success : bool;
  error_message : string;
  processing_time_ms : Z;
  original_size : nat;
  processed_size : nat
}.

(** [`TRANSLATED_AUDIO:${sourceLang}->${targetLang}|`] *)
Definition header_text (sourceLang targetLang : string) : string :=
  "TRANSLATED_AUDIO:" +:+ sourceLang +:+ "->" +:+ targetLang +:+ "|".

Section WithWaveforms.
Context {waves : Waveforms}.

Definition generateTranslatedAudio (originalAudio : list Z)
  (sourceLang targetLang : string) : M AudioResult :=
  let* startTime := Date_now in
  let header := Buffer_from (header_text sourceLang targetLang) in
  let dummyAudioSize := Nat.max (length originalAudio) 1024 in
  let dummyAudio := Buffer_alloc dummyAudioSize in
  let dummyAudio := fill wave_0_01 dummyAudioSize dummyAudio in
  let result := (header ++ dummyAudio)%list in
  let* now := Date_now in
  let processingTime := now - startTime in
  ret {| translatedAudio := result;
         processingTime := processingTime;
         originalSize := length originalAudio;
         processedSize := length result |}.

Definition handleProcessAudio (request : AudioRequest) : M (callback_args AudioResponse) :=
  let* startTime := Date_now in
  try_catch
    (let* r := generateTranslatedAudio (audio_data request)
                 (source_language request) (target_language request) in
     let* now := Date_now in
     ret (Callback None (Some
       {| translated_audio := translatedAudio r;
          resp_audio_format :=
            if String.eqb (audio_format request) EmptyString then "wav"
            else audio_format request;
          resp_source_language := source_language request;
          resp_target_language := target_language request;
          success := true;
          error_message := EmptyString;
          processing_time_ms := now - startTime;
          original_size := originalSize r;
          processed_size := processedSize r |})))
    (fun error =>
     let* now := Date_now in
     ret (Callback None (Some
       {| translated_audio := Buffer_alloc 0;
          resp_audio_format := audio_format request;
          resp_source_language := source_language request;
          resp_target_language := target_language request;
          success := false;
          error_message := message error;
          processing_time_ms := now - startTime;
          original_size := length (audio_data request);
          processed_size := 0 |}))).

(** [AudioChunk], one message of the client stream. *)
Record AudioChunk := mkAudioChunk {
  data : list Z;
  chunk_index : Z;
  chunk_user_id : string;
  chunk_target_language : string
}.

(** The variables [handleProcessAudioStream] closes over: [startTime],
    [chunks], [userId] and [targetLanguage]. *)
Record StreamState := mkStreamState {
  startTime : Z;
  chunks : list (list Z);
  userId : string;
  targetLanguage : string
}.

(** [a || b] on strings *)
Definition or_else (a b : string) : string :=
  if String.eqb a EmptyString then b else a.

(** The handler up to the registration of its listeners. *)
Definition stream_open : M StreamState :=
  let* startTime := Date_now in
  ret {| startTime := startTime; chunks := []; userId := EmptyString;
         targetLanguage := EmptyString |}.

(** The listener of [data]. *)
Definition stream_on_data (st : StreamState) (chunk : AudioChunk) : StreamState :=
  {| startTime := startTime st;
     chunks := (chunks st ++ [data chunk])%list;
     userId := or_else (chunk_user_id chunk) (userId st);
     targetLanguage := or_else (chunk_target_language chunk) (targetLanguage st) |}.

(** The listener of [end]. *)
Definition stream_on_end (st : StreamState) : M (callback_args AudioResponse) :=
  let fullAudio := concat (chunks st) in
  let* r := generateTranslatedAudio fullAudio "en" (targetLanguage st) in
  let* now := Date_now in
  ret (Callback None (Some
    {| translated_audio := translatedAudio r;
       resp_audio_format := "wav";
       resp_source_language := "en";
       resp_target_language := targetLanguage st;
       success := true;
       error_message := EmptyString;
       processing_time_ms := now - startTime st;
       original_size := originalSize r;
       processed_size := processedSize r |})).

(** The listener of [error]. *)
Definition stream_on_error (error : JSError) : callback_args AudioResponse :=
  Callback (Some error) None.

(** [handleProcessAudioStream] on a stream that delivers [stream] and ends. *)
Definition handleProcessAudioStream (stream : list AudioChunk)
  : M (callback_args AudioResponse) :=
  let* st := stream_open in
  stream_on_end (foldl stream_on_data st stream).

End WithWaveforms.

End Audio.

(** ** client/src/services/api.js *)

Module Client.
Import JS.
Local Open Scope string_scope.
Local Open Scope Z_scope.

(** What the operands of [+] in [btoa] can be: a character of [chars], the
    [undefined] an index past its end reads, or the [NaN] two of those add up
    to. *)
Inductive addend : Type :=
| Undefined
| NaN
| Str (s : string).

(** [x + y] on such operands: concatenation as soon as one side is a string. *)
Definition js_add (x y : addend) : addend :=
  match x, y with
  | Str a, Str b => Str (a +:+ b)
  | Str a, Undefined => Str (a +:+ "undefined")
  | Str a, NaN => Str (a +:+ "NaN")
  | Undefined, Str b => Str ("undefined" +:+ b)
  | NaN, Str b => Str ("NaN" +:+ b)
  | _, _ => NaN
  end.

Definition addend_text (x : addend) : string :=
  match x with
  | Undefined => "undefined"
  | NaN => "NaN"
  | Str s => s
  end.

Definition chars : string :=
  "ABCDEFGHIJKLMNOPQRSTUVWXYZabcdefghijklmnopqrstuvwxyz0123456789+/=".

(** [chars[index]] *)
Definition chars_at (index : Z) : addend :=
  if (index <? 0)%Z then Undefined
  else match String.get (Z.to_nat index) chars with
       | Some c => Str (String c EmptyString)
       | None => Undefined
       end.

(** The character of [chars] at an index within it. *)
Definition char_of (index : Z) : ascii :=
  default "A"%char (String.get (Z.to_nat index) chars).

(** [str.charCodeAt(i)]: the code unit at [i], [None] for the [NaN] past the
    end. *)
Definition charCodeAt (str : list Z) (i : nat) : option Z := str !! i.

Definition isNaN (x : option Z) : bool :=
  match x with Some _ => false | None => true end.

(** ToInt32 as the bit operators apply it: a code unit is its own value,
    [NaN] is 0. *)
Definition toInt32 (x : option Z) : Z := default 0 x.

(** One round of the [for] loop of [btoa]: the four characters added to
    [output] for the code units at [i], [i + 1] and [i + 2]. *)
Definition btoa_group (str : list Z) (i : nat) : string :=
  let a := charCodeAt str i in
  let b := charCodeAt str (i + 1) in
  let c := charCodeAt str (i + 2) in
  let index1 := Z.shiftr (toInt32 a) 2 in
  let index2 := Z.lor (Z.shiftl (Z.land (toInt32 a) 3) 4) (Z.shiftr (toInt32 b) 4) in
  let index3 :=
    if isNaN b then 64
    else Z.lor (Z.shiftl (Z.land (toInt32 b) 15) 2) (Z.shiftr (toInt32 c) 6) in
  let index4 := if isNaN c then 64 else Z.land (toInt32 c) 63 in
  addend_text
    (js_add (js_add (js_add (chars_at index1) (chars_at index2)) (chars_at index3))
       (chars_at index4)).

(** The loop, from index [i] on.  It stops when [i] reaches the length;
    [fuel] bounds the number of rounds. *)
Fixpoint btoa_loop (fuel : nat) (str : list Z) (i : nat) (output : string) : string :=
  match fuel with
  | O => output
  | S fuel' =>
      if (i <? length str)%nat
      then btoa_loop fuel' str (i + 3) (output +:+ btoa_group str i)
      else output
  end.

(** The index grows by three each round, so the length bounds the rounds. *)
Definition btoa (str : list Z) : string := btoa_loop (length str) str 0 EmptyString.

Section WithWaveforms.
Context {waves : Waveforms}.

(** [binary += String.fromCharCode(bytes[i])] for every index of [bytes] *)
Definition binary_of (bytes : list Z) : list Z :=
  foldl (fun binary i => (binary ++ [default 0 (bytes !! i) mod 65536])%list) []
    (seq 0 (length bytes)).

Definition generateDummyAudio : string :=
  let size := Z.to_nat 10240 in
  let bytes := Buffer_alloc size in
  let bytes := fill wave_0_1 size bytes in
  let binary := binary_of bytes in
  btoa binary.

End WithWaveforms.

End Client.

(** * Properties *)

(** ** The host functions *)

Module JSFacts.
Import JS.
Local Open Scope string_scope.
Local Open Scope Z_scope.

Lemma try_catch_throw {A} (e : JSError) (handler : JSError → M A) (w : World) :
  try_catch (throw e) handler w = handler e w.
Proof. reflexivity. Qed.

Lemma try_catch_ret {A} (a : A) (handler : JSError → M A) (w : World) :
  try_catch (ret a) handler w = (Returned a, w).
Proof. reflexivity. Qed.

Lemma toISOString_in_range (tv : Z) (w : World) :
  Z.abs tv ≤ MAX_TIME_VALUE → Date_toISOString tv w = (Returned tt, w).
Proof.
  intros Hle. unfold Date_toISOString.
  destruct (Z.leb_spec (Z.abs tv) MAX_TIME_VALUE) as [_|Hgt]; [reflexivity | lia].
Qed.

Lemma toISOString_out_of_range (tv : Z) (w : World) :
  MAX_TIME_VALUE < Z.abs tv →
  Date_toISOString tv w = (Thrown (mkError "RangeError" "Invalid time value"), w).
Proof.
  intros Hgt. unfold Date_toISOString.
  destruct (Z.leb_spec (Z.abs tv) MAX_TIME_VALUE) as [Hle|_]; [lia | reflexivity].
Qed.

(** A stripped character takes at least one byte, so [trimStart] has fuel
    to strip them all: nothing is left to strip from its result. *)
Lemma strip_space_shorter (s s' : string) :
  strip_space s = Some s' → (String.length s' < String.length s)%nat.
Proof.
  unfold strip_space. intros Hs.
  repeat case_match; simplify_eq; cbn [String.length]; lia.
Qed.

Lemma trimStart_fuel_done (fuel : nat) (s : string) :
  (String.length s ≤ fuel)%nat → strip_space (trimStart_fuel fuel s) = None.
Proof.
  revert s. induction fuel as [|fuel IH]; intros s Hlen.
  - destruct s; [reflexivity | cbn in Hlen; lia].
  - cbn [trimStart_fuel]. destruct (strip_space s) as [s'|] eqn:Hs; [|exact Hs].
    apply IH. apply strip_space_shorter in Hs. lia.
Qed.

Lemma trimStart_done (s : string) : strip_space (trimStart s) = None.
Proof. apply trimStart_fuel_done. reflexivity. Qed.

(** Splitting at spaces and joining with a space gives the string back. *)
Lemma split_nonempty (s : string) : split s ≠ [].
Proof.
  destruct s as [|c s]; simpl; [discriminate|].
  destruct (Ascii.eqb c " "); [discriminate|].
  destruct (split s); discriminate.
Qed.

Lemma join_cons (sep x : string) (l : list string) :
  l ≠ [] → join sep (x :: l) = x +:+ sep +:+ join sep l.
Proof. destruct l; [congruence | reflexivity]. Qed.

Lemma join_split (s : string) : join " " (split s) = s.
Proof.
  induction s as [|c s IH]; [reflexivity|].
  pose proof (split_nonempty s) as Hne.
  cbn [split]. destruct (Ascii.eqb_spec c " ") as [->|Hc].
  - rewrite join_cons by assumption. rewrite IH. reflexivity.
  - destruct (split s) as [|x l] eqn:E; [congruence|].
    destruct l as [|y l].
    + cbn [join] in *. congruence.
    + rewrite join_cons by discriminate.
      rewrite join_cons in IH by discriminate.
      rewrite <- IH. reflexivity.
Qed.

(** No word of a split contains a space. *)
Lemma split_words_no_space (s : string) :
  Forall (fun word => has_char " " word = false) (split s).
Proof.
  induction s as [|c s IH]; cbn [split].
  - repeat constructor.
  - destruct (Ascii.eqb c " ") eqn:Ec.
    + constructor; [reflexivity | exact IH].
    + destruct (split s) as [|x l].
      * constructor; [|constructor]. cbn. rewrite Ec. reflexivity.
      * inversion IH as [|? ? Hx Hl]; subst.
        constructor; [|assumption]. cbn. rewrite Ec. exact Hx.
Qed.

Lemma append_cons (c : ascii) (s1 s2 : string) :
  String c s1 +:+ s2 = String c (s1 +:+ s2).
Proof. reflexivity. Qed.

Lemma has_char_app (a : ascii) (s1 s2 : string) :
  has_char a (s1 +:+ s2) = has_char a s1 || has_char a s2.
Proof.
  induction s1 as [|c s1 IH]; [reflexivity|].
  rewrite append_cons. cbn. rewrite IH. apply orb_assoc.
Qed.

Lemma length_Buffer_from (s : string) : length (Buffer_from s) = String.length s.
Proof. induction s as [|c s IH]; simpl; congruence. Qed.

Lemma Buffer_from_app (s1 s2 : string) :
  Buffer_from (s1 +:+ s2) = (Buffer_from s1 ++ Buffer_from s2)%list.
Proof.
  induction s1 as [|c s1 IH]; [reflexivity|].
  rewrite append_cons. cbn. f_equal. exact IH.
Qed.

Lemma length_string_app (s1 s2 : string) :
  String.length (s1 +:+ s2) = (String.length s1 + String.length s2)%nat.
Proof.
  induction s1 as [|c s1 IH]; [reflexivity|].
  rewrite append_cons. cbn. f_equal. exact IH.
Qed.

(** The counted loop writes [f i mod 256] at every index below [size]. *)
Lemma fill_prefix (f : nat → Z) (size k : nat) :
  (k ≤ size)%nat →
  foldl (fun b i => Buffer_set b i (f i)) (Buffer_alloc size) (seq 0 k)
  = (map (fun i => f i mod 256) (seq 0 k) ++ replicate (size - k) 0)%list.
Proof.
  induction k as [|k IH]; intros Hk.
  - simpl. rewrite Nat.sub_0_r. reflexivity.
  - rewrite seq_S, foldl_app, map_app. simpl.
    rewrite IH by lia. unfold Buffer_set.
    rewrite insert_app_r_alt by (rewrite length_map, length_seq; lia).
    rewrite length_map, length_seq, Nat.sub_diag.
    replace (size - k)%nat with (S (size - S k)) by lia.
    simpl. rewrite <- app_assoc. reflexivity.
Qed.

Lemma fill_alloc (f : nat → Z) (size : nat) :
  fill f size (Buffer_alloc size) = map (fun i => f i mod 256) (seq 0 size).
Proof.
  unfold fill. rewrite fill_prefix by lia.
  rewrite Nat.sub_diag. simpl. apply app_nil_r.
Qed.

Lemma fill_alloc_bytes (f : nat → Z) (size : nat) :
  Forall (fun b => 0 ≤ b < 256) (fill f size (Buffer_alloc size)).
Proof.
  rewrite fill_alloc. apply Forall_forall. intros b Hb.
  apply list_elem_of_In, in_map_iff in Hb as (i & <- & _).
  apply Z.mod_pos_bound. lia.
Qed.

End JSFacts.

(** ** The translation worker *)

Module TranslationFacts.
Import JS JSFacts Translation.
Local Open Scope string_scope.
Local Open Scope Z_scope.

Section WithEngine.
Context {engine : Engine}.

(** [TRANSLATIONS[key]] never reaches [Object.prototype]: the key contains a
    dash and no inherited name does. *)
Lemma dict_key_not_inherited (sourceLang targetLang : string) :
  dict_key sourceLang targetLang ∉ Object_prototype.
Proof.
  intros Hin.
  assert (Hdash : has_char "-" (dict_key sourceLang targetLang) = true).
  { unfold dict_key. rewrite !has_char_app. cbn. apply orb_true_r. }
  assert (Hnone : Forall (fun p => has_char "-" p = false) Object_prototype).
  { unfold Object_prototype. repeat constructor. }
  rewrite Forall_forall in Hnone. apply Hnone in Hin. congruence.
Qed.

(** Every entry of every dictionary is a non-empty string, hence truthy. *)
Lemma entries_nonempty (key : string) (m : gmap string string) (k v : string) :
  TRANSLATIONS !! key = Some m → m !! k = Some v → v ≠ EmptyString.
Proof.
  intros Hm Hv. unfold TRANSLATIONS in Hm.
  apply elem_of_list_to_map_2 in Hm.
  repeat (apply elem_of_cons in Hm as [Hm|Hm];
          [injection Hm as _ ->; apply elem_of_list_to_map_2 in Hv;
           repeat (apply elem_of_cons in Hv as [Hv|Hv];
                   [injection Hv as _ ->; discriminate|]);
           apply elem_of_nil in Hv; contradiction |]).
  apply elem_of_nil in Hm. contradiction.
Qed.

Lemma mappings_entries_nonempty (sourceLang targetLang k v : string) :
  mappings_of sourceLang targetLang !! k = Some v → v ≠ EmptyString.
Proof.
  unfold mappings_of.
  destruct (TRANSLATIONS !! dict_key sourceLang targetLang) as [m|] eqn:Hm; simpl.
  - eapply entries_nonempty; eassumption.
  - rewrite lookup_empty. discriminate.
Qed.

Lemma get_own (m : gmap string string) (k v : string) :
  m !! k = Some v → get m k = VStr v.
Proof. intros Hk. unfold get. rewrite Hk. reflexivity. Qed.

Lemma get_undefined (m : gmap string string) (k : string) :
  get m k = VUndefined ↔ m !! k = None ∧ k ∉ Object_prototype.
Proof.
  unfold get. destruct (m !! k) as [v|]; [split; [discriminate | intros [? _]; discriminate]|].
  destruct (bool_decide_reflect (k ∈ Object_prototype)) as [Hin|Hout].
  - split; [discriminate | intros [_ ?]; contradiction].
  - split; auto.
Qed.

Lemma truthy_own (sourceLang targetLang k v : string) :
  mappings_of sourceLang targetLang !! k = Some v →
  truthy (get (mappings_of sourceLang targetLang) k) = true.
Proof.
  intros Hk. rewrite (get_own _ _ _ Hk). simpl.
  pose proof (mappings_entries_nonempty _ _ _ _ Hk) as Hne.
  destruct (String.eqb_spec v EmptyString); [contradiction | reflexivity].
Qed.

(** The three exits of [translateText], each with the clock readings it
    consumes. *)
Lemma translateText_same (text lang : string) (w : World) :
  translateText text lang lang w
  = (Returned {| translated := VStr text;
                 processingTime := w 1%nat - w 0%nat |},
     fun n => w (S (S n))).
Proof.
  unfold translateText, bind, Date_now, ret.
  rewrite bool_decide_eq_true_2 by reflexivity. reflexivity.
Qed.

Lemma translateText_exact (text sourceLang targetLang : string) (w : World) :
  sourceLang ≠ targetLang →
  truthy (get (mappings_of sourceLang targetLang) (trim (toLowerCase text))) = true →
  translateText text sourceLang targetLang w
  = (Returned {| translated :=
                   get (mappings_of sourceLang targetLang) (trim (toLowerCase text));
                 processingTime := w 1%nat - w 0%nat |},
     fun n => w (S (S n))).
Proof.
  intros Hne Ht. unfold translateText, bind, Date_now, ret.
  rewrite bool_decide_eq_false_2 by assumption.
  cbv zeta. rewrite Ht. reflexivity.
Qed.

Lemma translateText_words (text sourceLang targetLang : string) (w : World) :
  sourceLang ≠ targetLang →
  truthy (get (mappings_of sourceLang targetLang) (trim (toLowerCase text))) = false →
  translateText text sourceLang targetLang w
  = (Returned
       {| translated :=
            let normalizedText := trim (toLowerCase text) in
            let result :=
              join " " (map join_item
                          (map (translate_word (mappings_of sourceLang targetLang))
                             (split normalizedText))) in
            if String.eqb result normalizedText
            then VStr ("[" +:+ toUpperCase targetLang +:+ "] " +:+ text)
            else VStr result;
          processingTime := w 1%nat - w 0%nat |},
     fun n => w (S (S n))).
Proof.
  intros Hne Ht. unfold translateText, bind, Date_now, ret.
  rewrite bool_decide_eq_false_2 by assumption.
  cbv zeta. rewrite Ht. reflexivity.
Qed.

(** [translateText] returns in every world, never throws, and what it puts in
    [translated] does not depend on the clock. *)
Lemma translateText_total (text sourceLang targetLang : string) :
  ∃ v, ∀ w, translateText text sourceLang targetLang w
            = (Returned {| translated := v; processingTime := w 1%nat - w 0%nat |},
               fun n => w (S (S n))).
Proof.
  destruct (decide (sourceLang = targetLang)) as [->|Hne].
  - eexists. intros w. apply translateText_same.
  - destruct (truthy (get (mappings_of sourceLang targetLang) (trim (toLowerCase text))))
      eqn:Ht.
    + eexists. intros w. apply translateText_exact; assumption.
    + eexists. intros w. apply translateText_words; assumption.
Qed.

(** The single-request handler, for a timestamp that is a legal instant. *)
Lemma handleTranslateText_in_range (request : TextRequest) (v : jsval) (w : World) :
  Z.abs (timestamp request) ≤ MAX_TIME_VALUE →
  (∀ w', translateText (text request) (source_language request)
           (target_language request) w'
         = (Returned {| translated := v; processingTime := w' 1%nat - w' 0%nat |},
            fun n => w' (S (S n)))) →
  handleTranslateText request w
  = (Returned (Callback None (Some
       {| original_text := text request;
          translated_text := v;
          resp_source_language := source_language request;
          resp_target_language := target_language request;
          success := true;
          error_message := EmptyString;
          processing_time_ms := w 3%nat - w 0%nat |})),
     fun n => w (S (S (S (S n))))).
Proof.
  intros Hts Hrun. unfold handleTranslateText, bind, try_catch.
  cbn [Date_now]. rewrite toISOString_in_range by assumption.
  rewrite Hrun. reflexivity.
Qed.

Lemma handleTranslateText_out_of_range (request : TextRequest) (w : World) :
  MAX_TIME_VALUE < Z.abs (timestamp request) →
  handleTranslateText request w
  = (Thrown (mkError "RangeError" "Invalid time value"), fun n => w (S n)).
Proof.
  intros Hts. unfold handleTranslateText, bind.
  cbn [Date_now]. rewrite toISOString_out_of_range by assumption. reflexivity.
Qed.

(** A word that names no inherited member is replaced by its entry, or kept. *)
Lemma translate_word_plain (sourceLang targetLang word : string) :
  word ∉ Object_prototype →
  translate_word (mappings_of sourceLang targetLang) word
  = VStr (default word (mappings_of sourceLang targetLang !! word)).
Proof.
  intros Hout. unfold translate_word.
  destruct (mappings_of sourceLang targetLang !! word) as [v|] eqn:Hw.
  - rewrite (truthy_own _ _ _ _ Hw). rewrite (get_own _ _ _ Hw). reflexivity.
  - assert (Hu : get (mappings_of sourceLang targetLang) word = VUndefined)
      by (apply get_undefined; auto).
    rewrite Hu. reflexivity.
Qed.

Lemma translate_words_plain (sourceLang targetLang : string) (words : list string) :
  Forall (fun word => word ∉ Object_prototype) words →
  map join_item (map (translate_word (mappings_of sourceLang targetLang)) words)
  = map (fun word => default word (mappings_of sourceLang targetLang !! word)) words.
Proof.
  induction 1 as [|word words Hword _ IH]; [reflexivity|].
  cbn [map]. rewrite IH, translate_word_plain by assumption. reflexivity.
Qed.

Lemma translate_words_unchanged (m : gmap string string) (words : list string) :
  Forall (fun word => get m word = VUndefined ∨ get m word = VStr word) words →
  map join_item (map (translate_word m) words) = words.
Proof.
  induction 1 as [|word words Hword _ IH]; [reflexivity|].
  cbn [map]. rewrite IH. f_equal.
  unfold translate_word. destruct Hword as [-> | ->]; [reflexivity|].
  cbn [truthy]. destruct (negb (String.eqb word EmptyString)); reflexivity.
Qed.

(** The fall-back of [translateText] on text none of whose words, nor the whole
    of it, names an inherited member of the dictionary object: the words are
    looked up one by one, and text that comes out unchanged is marked. *)
Lemma translateText_word_by_word (text sourceLang targetLang : string) (w : World) :
  let mappings := mappings_of sourceLang targetLang in
  let normalizedText := trim (toLowerCase text) in
  sourceLang ≠ targetLang →
  mappings !! normalizedText = None →
  normalizedText ∉ Object_prototype →
  Forall (fun word => word ∉ Object_prototype) (split normalizedText) →
  translateText text sourceLang targetLang w
  = (Returned
       {| translated :=
            let result :=
              join " " (map (fun word => default word (mappings !! word))
                          (split normalizedText)) in
            if String.eqb result normalizedText
            then VStr ("[" +:+ toUpperCase targetLang +:+ "] " +:+ text)
            else VStr result;
          processingTime := w 1%nat - w 0%nat |},
     fun n => w (S (S n))).
Proof.
  intros mappings normalizedText Hne Hnone Hout Hwords.
  rewrite translateText_words; [|assumption|].
  - cbv zeta. fold normalizedText mappings.
    unfold mappings. rewrite translate_words_plain by assumption. reflexivity.
  - fold normalizedText mappings.
    assert (Hu : get mappings normalizedText = VUndefined)
      by (apply get_undefined; auto).
    rewrite Hu. reflexivity.
Qed.

(** The responses of the batch, one per request and in the order of the
    requests. *)
Lemma mapM_translate_one (requests : list TextRequest) (w : World) :
  ∃ resps w', mapM translate_one requests w = (Returned resps, w')
    ∧ Forall2 (fun req resp =>
                 original_text resp = text req
                 ∧ resp_source_language resp = source_language req
                 ∧ resp_target_language resp = target_language req
                 ∧ success resp = true
                 ∧ error_message resp = EmptyString
                 ∧ ∀ w1, translateText (text req) (source_language req)
                           (target_language req) w1
                         = (Returned {| translated := translated_text resp;
                                        processingTime := w1 1%nat - w1 0%nat |},
                            fun n => w1 (S (S n))))
        requests resps.
Proof.
  revert w. induction requests as [|req requests IH]; intros w.
  - exists [], w. split; [reflexivity | constructor].
  - destruct (translateText_total (text req) (source_language req)
                (target_language req)) as [v Hv].
    destruct (IH (fun n => w (S (S n)))) as (resps & w' & Hrun & Hall).
    eexists (_ :: resps), w'. split.
    + cbn [mapM]. unfold bind at 1. unfold translate_one at 1. unfold bind at 1.
      rewrite Hv. cbn [ret]. unfold bind at 1. rewrite Hrun. reflexivity.
    + constructor; [|exact Hall]. cbn. repeat split; try reflexivity. exact Hv.
Qed.

(** C3.  When the source and the target language are the same string,
    [translateText] returns the text it was given, unchanged, and the
    [TranslateText] handler answers every request whose timestamp is a legal
    instant with that text as [translated_text], next to the original. *)
Theorem same_language_returns_text (text lang : string) :
  (∀ w, translateText text lang lang w
        = (Returned {| translated := VStr text;
                       processingTime := w 1%nat - w 0%nat |},
           fun n => w (S (S n))))
  ∧ (∀ uid ts w,
       Z.abs ts ≤ MAX_TIME_VALUE →
       handleTranslateText (mkTextRequest text lang lang uid ts) w
       = (Returned (Callback None (Some
            {| original_text := text;
               translated_text := VStr text;
               resp_source_language := lang;
               resp_target_language := lang;
               success := true;
               error_message := EmptyString;
               processing_time_ms := w 3%nat - w 0%nat |})),
          fun n => w (S (S (S (S n)))))).
Proof.
  split.
  - intros w. apply translateText_same.
  - intros uid ts w Hts.
    apply (handleTranslateText_in_range (mkTextRequest text lang lang uid ts));
      [exact Hts|].
    intros w'. apply translateText_same.
Qed.

(** C4.  For different languages, when the lowercased and trimmed text is a
    key of the dictionary of the language pair, the result is the entry under
    that key.  In particular the request (u1, hello, en, es) is answered with
    hola, on any engine whose lowercasing keeps the word hello. *)
Theorem exact_key_gives_entry :
  (∀ text sourceLang targetLang m v w,
     sourceLang ≠ targetLang →
     TRANSLATIONS !! dict_key sourceLang targetLang = Some m →
     m !! trim (toLowerCase text) = Some v →
     translateText text sourceLang targetLang w
     = (Returned {| translated := VStr v; processingTime := w 1%nat - w 0%nat |},
        fun n => w (S (S n))))
  ∧ (toLowerCase "hello" = "hello" →
     ∀ ts w,
       Z.abs ts ≤ MAX_TIME_VALUE →
       handleTranslateText (mkTextRequest "hello" "en" "es" "u1" ts) w
       = (Returned (Callback None (Some
            {| original_text := "hello";
               translated_text := VStr "hola";
               resp_source_language := "en";
               resp_target_language := "es";
               success := true;
               error_message := EmptyString;
               processing_time_ms := w 3%nat - w 0%nat |})),
          fun n => w (S (S (S (S n)))))).
Proof.
  assert (Hgen : ∀ text sourceLang targetLang m v w,
     sourceLang ≠ targetLang →
     TRANSLATIONS !! dict_key sourceLang targetLang = Some m →
     m !! trim (toLowerCase text) = Some v →
     translateText text sourceLang targetLang w
     = (Returned {| translated := VStr v; processingTime := w 1%nat - w 0%nat |},
        fun n => w (S (S n)))).
  { intros text sourceLang targetLang m v w Hne Hm Hv.
    assert (Hown : mappings_of sourceLang targetLang !! trim (toLowerCase text) = Some v).
    { unfold mappings_of. rewrite Hm. exact Hv. }
    rewrite translateText_exact; [|assumption|].
    - rewrite (get_own _ _ _ Hown). reflexivity.
    - eapply truthy_own. exact Hown. }
  split; [exact Hgen|].
  intros Hlower ts w Hts.
  apply (handleTranslateText_in_range (mkTextRequest "hello" "en" "es" "u1" ts));
    [exact Hts|].
  intros w'. cbn [text source_language target_language].
  apply (Hgen "hello" "en" "es" en_es "hola" w').
  - discriminate.
  - reflexivity.
  - rewrite Hlower. reflexivity.
Qed.

(** C2, as amended.  For different languages, when the lowercased and trimmed
    text reads no property of the dictionary object, and each of its words
    reads none or reads the word itself, the result is the original text
    behind the upper-cased target code in brackets and a space. *)
Theorem untranslated_text_is_marked (text sourceLang targetLang : string) (w : World) :
  let mappings := mappings_of sourceLang targetLang in
  let normalizedText := trim (toLowerCase text) in
  sourceLang ≠ targetLang →
  get mappings normalizedText = VUndefined →
  Forall (fun word => get mappings word = VUndefined ∨ get mappings word = VStr word)
    (split normalizedText) →
  translateText text sourceLang targetLang w
  = (Returned {| translated := VStr ("[" +:+ toUpperCase targetLang +:+ "] " +:+ text);
                 processingTime := w 1%nat - w 0%nat |},
     fun n => w (S (S n))).
Proof.
  intros mappings normalizedText Hne Hphrase Hwords.
  rewrite translateText_words; [|assumption|].
  - cbv zeta. fold normalizedText mappings.
    rewrite translate_words_unchanged by assumption.
    rewrite join_split, String.eqb_refl. reflexivity.
  - fold normalizedText mappings. rewrite Hphrase. reflexivity.
Qed.

(** C8.  [GetSupportedLanguages] answers every call, in every world, with the
    same five pairs in the same order, and reads nothing on the way. *)
Theorem supported_languages_fixed (call : unit) (w : World) :
  handleGetSupportedLanguages call w
  = (Returned (Callback None (Some
       {| languages :=
            [ mkLanguage "en" "English"; mkLanguage "es" "Spanish";
              mkLanguage "fr" "French"; mkLanguage "de" "German";
              mkLanguage "ur" "Urdu" ] |})),
     w).
Proof. reflexivity. Qed.

(** C9.  [TranslateBatch] answers every list of requests, with one response
    per request and in the order of the requests: the response at an index
    carries the text of the request at that index, and its [translated_text]
    is the one [TranslateText] answers that request with, in any world where
    it answers, which it does whenever the timestamp is a legal instant. *)
Theorem batch_agrees_with_single (requests : list TextRequest) (w : World) :
  ∃ resps total w',
    handleTranslateBatch requests w
    = (Returned (Callback None (Some
         {| responses := resps; total_processing_time_ms := total |})), w')
    ∧ length resps = length requests
    ∧ ∀ i req,
        requests !! i = Some req →
        ∃ resp,
          resps !! i = Some resp
          ∧ original_text resp = text req
          ∧ success resp = true
          ∧ (∀ w1, Z.abs (timestamp req) ≤ MAX_TIME_VALUE →
                   ∃ single w1',
                     handleTranslateText req w1
                     = (Returned (Callback None (Some single)), w1')
                     ∧ translated_text single = translated_text resp)
          ∧ (∀ w1 cb w1',
               handleTranslateText req w1 = (Returned cb, w1') →
               ∃ single, cb = Callback None (Some single)
                         ∧ translated_text single = translated_text resp).
Proof.
  destruct (mapM_translate_one requests (fun n => w (S n)))
    as (resps & w' & Hrun & Hall).
  exists resps, (w' 0%nat - w 0%nat), (fun n => w' (S n)).
  split; [|split].
  - unfold handleTranslateBatch, bind. cbn [Date_now]. rewrite Hrun. reflexivity.
  - symmetry. eapply Forall2_length. exact Hall.
  - intros i req Hreq.
    destruct (Forall2_lookup_l _ _ _ _ _ Hall Hreq)
      as (resp & Hresp & Horig & _ & _ & Hsucc & _ & Htr).
    exists resp. repeat split; try assumption.
    + intros w1 Hts. do 2 eexists. split.
      * apply handleTranslateText_in_range; [exact Hts | exact Htr].
      * reflexivity.
    + intros w1 cb w1' Hcb.
      destruct (Z.le_gt_cases (Z.abs (timestamp req)) MAX_TIME_VALUE) as [Hts|Hts].
      * rewrite (handleTranslateText_in_range req _ w1 Hts Htr) in Hcb.
        injection Hcb as <- _. eexists. split; reflexivity.
      * rewrite handleTranslateText_out_of_range in Hcb by assumption. discriminate.
Qed.

End WithEngine.

(** On text that names the inherited [constructor], the exact-match test of
    [translateText] succeeds although no dictionary has that key. *)
Lemma constructor_not_a_key :
  mappings_of "en" "es" !! "constructor" = None.
Proof. vm_compute. reflexivity. Qed.

(** C1, at the text constructor from en to es.  The text is no key of the
    en-es dictionary, and its single word has no entry, so the word-by-word
    result would be the text itself and the answer the marked original.  The
    property read finds the member every object inherits, the exact-match exit
    is taken, and [translated] is the built-in function instead of a string. *)
Theorem inherited_name_taken_for_entry (w : World) :
  mappings_of "en" "es" !! trim (toLowerCase (Engine := ascii_engine) "constructor") = None
  ∧ translateText (engine := ascii_engine) "constructor" "en" "es" w
    = (Returned {| translated := VBuiltin "constructor";
                   processingTime := w 1%nat - w 0%nat |},
       fun n => w (S (S n)))
  ∧ VBuiltin "constructor"
    ≠ VStr ("[" +:+ toUpperCase (Engine := ascii_engine) "es" +:+ "] " +:+ "constructor").
Proof.
  split; [vm_compute; reflexivity|]. split; [|discriminate].
  rewrite translateText_exact; [reflexivity | discriminate | reflexivity].
Qed.

(** The same read inside a phrase: the inherited member is joined into the
    result in the text form the engine gives a native function. *)
Lemma inherited_name_inside_phrase (w : World) :
  fst (translateText (engine := ascii_engine) "hello constructor" "en" "es" w)
  = Returned {| translated := VStr "hola function Object() { [native code] }";
                processingTime := w 1%nat - w 0%nat |}.
Proof.
  rewrite translateText_words; [reflexivity | discriminate | reflexivity].
Qed.

(** C2 fails on the phrase hello friend from en to es: the en-es dictionary has
    no entry for the phrase, and the result is the word-by-word translation,
    not the marked original. *)
Lemma phrase_without_entry_is_translated :
  "en" ≠ "es"
  ∧ mappings_of "en" "es" !! "hello friend" = None
  ∧ mappings_of "en" "es"
      !! trim (toLowerCase (Engine := ascii_engine) "hello friend") = None
  ∧ fst (translateText (engine := ascii_engine) "hello friend" "en" "es" (fun _ => 0))
    = Returned {| translated := VStr "hola amigo"; processingTime := 0 |}
  ∧ VStr "hola amigo"
    ≠ VStr ("[" +:+ toUpperCase (Engine := ascii_engine) "es" +:+ "] " +:+ "hello friend").
Proof.
  split; [discriminate|]. split; [vm_compute; reflexivity|].
  split; [vm_compute; reflexivity|]. split; [vm_compute; reflexivity | discriminate].
Qed.

(** Inside its [try], the [TranslateText] handler cannot fail: whenever the
    timestamp is a legal instant it calls back with a response whose [success]
    is set and whose [error_message] is empty. *)
Lemma translate_handler_answers {engine : Engine} (request : TextRequest) (w : World) :
  Z.abs (timestamp request) ≤ MAX_TIME_VALUE →
  ∃ resp w',
    handleTranslateText request w = (Returned (Callback None (Some resp)), w')
    ∧ success resp = true
    ∧ error_message resp = EmptyString.
Proof.
  intros Hts.
  destruct (translateText_total (text request) (source_language request)
              (target_language request)) as [v Hv].
  do 2 eexists. split; [apply handleTranslateText_in_range; eassumption|].
  split; reflexivity.
Qed.

(** C6, at the request (hello, en, es, u1) with the timestamp 8640000000000001,
    one millisecond past the last instant a [Date] can hold.  The banner the
    handler logs before its [try] formats the timestamp, the formatting throws
    a [RangeError], and the handler is left without having called its callback:
    the caller gets no response body. *)
Theorem translate_handler_throws_before_try {engine : Engine} (w : World) :
  handleTranslateText (mkTextRequest "hello" "en" "es" "u1" 8640000000000001) w
  = (Thrown (mkError "RangeError" "Invalid time value"), fun n => w (S n)).
Proof. reflexivity. Qed.

Lemma same_language_returns_text_witness :
  handleTranslateText (engine := ascii_engine)
    (mkTextRequest "Good Morning" "en" "en" "u1" 1702900000000) (fun n => Z.of_nat n)
  = (Returned (Callback None (Some
       {| original_text := "Good Morning";
          translated_text := VStr "Good Morning";
          resp_source_language := "en";
          resp_target_language := "en";
          success := true;
          error_message := EmptyString;
          processing_time_ms := 3 |})),
     fun n => Z.of_nat (S (S (S (S n))))).
Proof.
  apply (proj2 (same_language_returns_text (engine := ascii_engine) "Good Morning" "en")
           "u1" 1702900000000 (fun n => Z.of_nat n)).
  vm_compute. discriminate.
Defined.

Lemma exact_key_gives_entry_witness :
  translateText (engine := ascii_engine) "  Thank You " "en" "fr" (fun n => Z.of_nat n)
  = (Returned {| translated := VStr "merci"; processingTime := 1 |},
     fun n => Z.of_nat (S (S n)))
  ∧ handleTranslateText (engine := ascii_engine)
      (mkTextRequest "hello" "en" "es" "u1" 1702900000000) (fun n => Z.of_nat n)
    = (Returned (Callback None (Some
         {| original_text := "hello";
            translated_text := VStr "hola";
            resp_source_language := "en";
            resp_target_language := "es";
            success := true;
            error_message := EmptyString;
            processing_time_ms := 3 |})),
       fun n => Z.of_nat (S (S (S (S n))))).
Proof.
  split.
  - apply (proj1 (exact_key_gives_entry (engine := ascii_engine))
             "  Thank You " "en" "fr" en_fr "merci" (fun n => Z.of_nat n)).
    + discriminate.
    + reflexivity.
    + reflexivity.
  - apply (proj2 (exact_key_gives_entry (engine := ascii_engine))).
    + reflexivity.
    + vm_compute. discriminate.
Defined.

Lemma untranslated_text_is_marked_witness :
  translateText (engine := ascii_engine) "No Way" "en" "es" (fun n => Z.of_nat n)
  = (Returned {| translated := VStr "[ES] No Way"; processingTime := 1 |},
     fun n => Z.of_nat (S (S n))).
Proof.
  apply (untranslated_text_is_marked (engine := ascii_engine) "No Way" "en" "es"
           (fun n => Z.of_nat n)).
  - discriminate.
  - reflexivity.
  - constructor; [right; reflexivity|].
    constructor; [left; reflexivity | constructor].
Defined.

Lemma batch_agrees_with_single_witness :
  ∃ resps resp,
    length resps = 2%nat
    ∧ resps !! 1%nat = Some resp
    ∧ original_text resp = "hello friend"
    ∧ translated_text resp = VStr "hola amigo".
Proof.
  destruct (batch_agrees_with_single (engine := ascii_engine)
              [ mkTextRequest "hello" "en" "es" "u1" 1702900000000;
                mkTextRequest "hello friend" "en" "es" "u2" 1702900000001 ]
              (fun n => Z.of_nat n))
    as (resps & total & w' & Hrun & Hlen & Hall).
  destruct (Hall 1%nat (mkTextRequest "hello friend" "en" "es" "u2" 1702900000001)
              eq_refl) as (resp & Hresp & Horig & _ & Hsingle & _).
  exists resps, resp. repeat split; try assumption.
  destruct (Hsingle (fun n => Z.of_nat n)) as (single & w1' & Hrun1 & <-).
  - vm_compute. discriminate.
  - vm_compute in Hrun1. injection Hrun1 as <- _. reflexivity.
Defined.

End TranslationFacts.

(** ** The audio worker *)

Module AudioFacts.
Import JS JSFacts Audio.
Local Open Scope string_scope.
Local Open Scope Z_scope.

Lemma length_header_text (sourceLang targetLang : string) :
  String.length (header_text sourceLang targetLang)
  = (20 + String.length sourceLang + String.length targetLang)%nat.
Proof.
  unfold header_text. rewrite !length_string_app. cbn [String.length]. lia.
Qed.

Section WithWaveforms.
Context {waves : Waveforms}.

(** The synthetic waveform of a given size; it depends on nothing else. *)
Lemma generateTranslatedAudio_run (originalAudio : list Z)
  (sourceLang targetLang : string) (w : World) :
  generateTranslatedAudio originalAudio sourceLang targetLang w
  = (Returned
       {| translatedAudio :=
            (Buffer_from (header_text sourceLang targetLang)
             ++ map (fun i => wave_0_01 i mod 256)
                  (seq 0 (Nat.max (length originalAudio) 1024)))%list;
          processingTime := w 1%nat - w 0%nat;
          originalSize := length originalAudio;
          processedSize :=
            (Nat.max (length originalAudio) 1024
             + String.length (header_text sourceLang targetLang))%nat |},
     fun n => w (S (S n))).
Proof.
  unfold generateTranslatedAudio, bind, Date_now, ret. cbv zeta.
  rewrite fill_alloc.
  rewrite length_app, length_Buffer_from, length_map, length_seq.
  rewrite (Nat.add_comm (String.length _)). reflexivity.
Qed.

Lemma handleProcessAudio_run (request : AudioRequest) (w : World) :
  handleProcessAudio request w
  = (Returned (Callback None (Some
       {| translated_audio :=
            (Buffer_from (header_text (source_language request) (target_language request))
             ++ map (fun i => wave_0_01 i mod 256)
                  (seq 0 (Nat.max (length (audio_data request)) 1024)))%list;
          resp_audio_format :=
            if String.eqb (audio_format request) EmptyString then "wav"
            else audio_format request;
          resp_source_language := source_language request;
          resp_target_language := target_language request;
          success := true;
          error_message := EmptyString;
          processing_time_ms := w 3%nat - w 0%nat;
          original_size := length (audio_data request);
          processed_size :=
            (Nat.max (length (audio_data request)) 1024
             + String.length (header_text (source_language request)
                                (target_language request)))%nat |})),
     fun n => w (S (S (S (S n))))).
Proof.
  unfold handleProcessAudio, bind, try_catch. cbn [Date_now].
  rewrite generateTranslatedAudio_run. reflexivity.
Qed.

(** C5, as amended.  [ProcessAudio] answers every request, in every world.
    The size it reports is the larger of the input size and 1024, plus the
    length of the header, which is no constant: it is 20 bytes and the two
    language codes of the request.  The reported size is the size of the audio
    it returns.  That audio is the header followed by the samples of
    the waveform at the indices below the larger of the input size and 1024:
    the clock has no part in it, and two calls with the same request return
    the same bytes. *)
Theorem processed_audio_size_and_content (request : AudioRequest) (w : World) :
  let header := header_text (source_language request) (target_language request) in
  let body := Nat.max (length (audio_data request)) 1024 in
  ∃ resp w',
    handleProcessAudio request w = (Returned (Callback None (Some resp)), w')
    ∧ processed_size resp = (body + String.length header)%nat
    ∧ String.length header
      = (20 + String.length (source_language request)
         + String.length (target_language request))%nat
    ∧ length (translated_audio resp) = processed_size resp
    ∧ translated_audio resp
      = (Buffer_from header ++ map (fun i => wave_0_01 i mod 256) (seq 0 body))%list
    ∧ ∀ w2, ∃ resp2 w2',
        handleProcessAudio request w2 = (Returned (Callback None (Some resp2)), w2')
        ∧ translated_audio resp2 = translated_audio resp
        ∧ processed_size resp2 = processed_size resp.
Proof.
  intros header body. do 2 eexists.
  split; [apply handleProcessAudio_run|]. cbn [processed_size translated_audio].
  fold header body.
  split; [reflexivity|]. split; [apply length_header_text|].
  split; [rewrite length_app, length_Buffer_from, length_map, length_seq; lia|].
  split; [reflexivity|].
  intros w2. do 2 eexists. split; [apply handleProcessAudio_run|].
  split; reflexivity.
Qed.

(** C10.  [ProcessAudio] answers every request with [success] set, and the
    audio it returns is larger than the input: its size is the length of the
    header plus the larger of the input size and 1024, which is more than the
    input size and at least 1024 plus the header, also for an empty input.
    That size is both the [processed_size] reported and the number of bytes in
    [translated_audio].  The audio starts with the bytes of the header, the
    text TRANSLATED_AUDIO followed by a colon, the source code, an arrow, the
    target code and a bar, and goes on with as many samples as the larger of
    the input size and 1024. *)
Theorem processed_audio_exceeds_input (request : AudioRequest) (w : World) :
  let header := "TRANSLATED_AUDIO:" +:+ source_language request +:+ "->"
                +:+ target_language request +:+ "|" in
  ∃ resp w',
    handleProcessAudio request w = (Returned (Callback None (Some resp)), w')
    ∧ success resp = true
    ∧ error_message resp = EmptyString
    ∧ processed_size resp
      = (String.length header + Nat.max (length (audio_data request)) 1024)%nat
    ∧ original_size resp = length (audio_data request)
    ∧ (original_size resp < processed_size resp)%nat
    ∧ (1024 + String.length header ≤ processed_size resp)%nat
    ∧ (audio_data request = [] →
       processed_size resp = (1024 + String.length header)%nat)
    ∧ (0 < String.length header)%nat
    ∧ take (String.length header) (translated_audio resp) = Buffer_from header
    ∧ length (translated_audio resp) = processed_size resp
    ∧ (length (audio_data request) < length (translated_audio resp))%nat
    ∧ (1024 + String.length header ≤ length (translated_audio resp))%nat
    ∧ length (drop (String.length header) (translated_audio resp))
      = Nat.max (length (audio_data request)) 1024.
Proof.
  intros header. do 2 eexists.
  split; [apply handleProcessAudio_run|].
  cbn [success error_message processed_size original_size translated_audio].
  change (header_text (source_language request) (target_language request)) with header.
  pose proof (length_header_text (source_language request) (target_language request))
    as Hlen.
  change (header_text (source_language request) (target_language request))
    with header in Hlen.
  assert (Haudio : length (Buffer_from header
                           ++ map (fun i => wave_0_01 i mod 256)
                                (seq 0 (Nat.max (length (audio_data request)) 1024)))
                   = (String.length header
                      + Nat.max (length (audio_data request)) 1024)%nat).
  { rewrite length_app, length_Buffer_from, length_map, length_seq. reflexivity. }
  assert (Htake : take (String.length header)
                    (Buffer_from header
                     ++ map (fun i => wave_0_01 i mod 256)
                          (seq 0 (Nat.max (length (audio_data request)) 1024)))
                  = Buffer_from header).
  { rewrite <- (length_Buffer_from header). apply take_app_length. }
  assert (Hdrop : length (drop (String.length header)
                            (Buffer_from header
                             ++ map (fun i => wave_0_01 i mod 256)
                                  (seq 0 (Nat.max (length (audio_data request)) 1024))))
                  = Nat.max (length (audio_data request)) 1024).
  { rewrite length_drop, Haudio. lia. }
  rewrite Haudio.
  split; [reflexivity|]. split; [reflexivity|]. split; [lia|].
  split; [reflexivity|]. split; [lia|]. split; [lia|].
  split; [intros ->; cbn [length]; lia|]. split; [lia|].
  split; [exact Htake|]. split; [lia|]. split; [lia|]. split; [lia|].
  exact Hdrop.
Qed.

(** The [ProcessAudio] handler has nothing that throws before or inside its
    [try]: it calls back with a response for every request. *)
Lemma audio_handler_answers (request : AudioRequest) (w : World) :
  ∃ resp w',
    handleProcessAudio request w = (Returned (Callback None (Some resp)), w')
    ∧ success resp = true
    ∧ error_message resp = EmptyString.
Proof.
  do 2 eexists. split; [apply handleProcessAudio_run|]. split; reflexivity.
Qed.

End WithWaveforms.

(** C5 fails as worded: the header has no fixed length.  For the same empty
    input the reported size is 1048 with the codes en and es and 1044 with two
    empty codes, so no constant added to the larger of the input size and 1024
    gives the reported size of every request. *)
Lemma header_length_not_fixed :
  (∀ w, ∃ resp w',
     handleProcessAudio (waves := flat_wave)
       (mkAudioRequest [] "wav" "en" "es" "u1" 0 0) w
     = (Returned (Callback None (Some resp)), w')
     ∧ processed_size resp = 1048%nat)
  ∧ (∀ w, ∃ resp w',
       handleProcessAudio (waves := flat_wave)
         (mkAudioRequest [] "wav" EmptyString EmptyString "u1" 0 0) w
       = (Returned (Callback None (Some resp)), w')
       ∧ processed_size resp = 1044%nat)
  ∧ ¬ (∃ header_length : nat,
         ∀ request w resp w',
           handleProcessAudio (waves := flat_wave) request w
           = (Returned (Callback None (Some resp)), w') →
           processed_size resp
           = (Nat.max (length (audio_data request)) 1024 + header_length)%nat).
Proof.
  split; [|split].
  - intros w. do 2 eexists. split; [apply handleProcessAudio_run | reflexivity].
  - intros w. do 2 eexists. split; [apply handleProcessAudio_run | reflexivity].
  - intros [header_length Hall].
    pose proof (Hall (mkAudioRequest [] "wav" "en" "es" "u1" 0 0) (fun _ => 0) _ _
                  (handleProcessAudio_run _ _)) as H1.
    pose proof (Hall (mkAudioRequest [] "wav" EmptyString EmptyString "u1" 0 0)
                  (fun _ => 0) _ _ (handleProcessAudio_run _ _)) as H2.
    cbn [processed_size audio_data length source_language target_language] in H1, H2.
    rewrite !length_header_text in H1, H2. cbn [String.length] in H1, H2. lia.
Qed.

End AudioFacts.

(** ** The client's base64 encoder *)

Module ClientFacts.
Import JS JSFacts Client.
Local Open Scope string_scope.
Local Open Scope Z_scope.

(** The bitwise or of two numbers below a power of two stays below it. *)
Lemma lor_bound (n x y : Z) :
  0 ≤ n → 0 ≤ x < 2 ^ n → 0 ≤ y < 2 ^ n → 0 ≤ Z.lor x y < 2 ^ n.
Proof.
  intros Hn Hx Hy.
  assert (Hnonneg : 0 ≤ Z.lor x y) by (apply Z.lor_nonneg; lia).
  split; [exact Hnonneg|].
  destruct (Z.eq_dec (Z.lor x y) 0) as [->|Hnz]; [lia|].
  assert (Hpos : 0 < n).
  { destruct (Z.eq_dec n 0) as [->|]; [|lia].
    assert (x = 0 ∧ y = 0) as [-> ->] by (cbn in Hx, Hy; lia).
    exfalso. apply Hnz. reflexivity. }
  assert (Hlog : ∀ z, 0 ≤ z < 2 ^ n → Z.log2 z < n).
  { intros z Hz. destruct (Z.eq_dec z 0) as [->|Hz0]; [exact Hpos|].
    apply Z.log2_lt_pow2; lia. }
  apply Z.log2_lt_pow2; [lia|].
  rewrite Z.log2_lor by lia.
  apply Z.max_lub_lt; apply Hlog; assumption.
Qed.

Lemma get_in_range (s : string) (n : nat) :
  (n < String.length s)%nat → ∃ c, String.get n s = Some c.
Proof.
  revert n. induction s as [|c s IH]; intros n Hn; cbn in Hn; [lia|].
  destruct n as [|n]; cbn; [eauto|]. apply IH. lia.
Qed.

(** The 65 characters of [chars] answer the indices 0 to 64. *)
Lemma chars_at_defined (index : Z) :
  0 ≤ index ≤ 64 → ∃ c, chars_at index = Str (String c EmptyString).
Proof.
  intros Hi. unfold chars_at.
  destruct (Z.ltb_spec index 0) as [Hneg|_]; [lia|].
  destruct (get_in_range chars (Z.to_nat index)) as [c Hc].
  - change (String.length chars) with 65%nat. lia.
  - rewrite Hc. eauto.
Qed.

Lemma toInt32_byte (str : list Z) (i : nat) :
  Forall (fun c => 0 ≤ c < 256) str → 0 ≤ toInt32 (charCodeAt str i) < 256.
Proof.
  intros Hbytes. unfold toInt32, charCodeAt.
  destruct (str !! i) as [c|] eqn:Hc; cbn; [|lia].
  rewrite Forall_lookup in Hbytes. exact (Hbytes _ _ Hc).
Qed.

(** The four indices computed from bytes stay inside [chars]. *)
Lemma index1_range (a : Z) : 0 ≤ a < 256 → 0 ≤ Z.shiftr a 2 ≤ 64.
Proof.
  intros Ha. rewrite Z.shiftr_div_pow2 by lia. change (2 ^ 2) with 4.
  split; [apply Z.div_pos; lia|].
  assert (a / 4 < 64) by (apply Z.div_lt_upper_bound; lia). lia.
Qed.

Lemma index2_range (a b : Z) :
  0 ≤ a < 256 → 0 ≤ b < 256 →
  0 ≤ Z.lor (Z.shiftl (Z.land a 3) 4) (Z.shiftr b 4) ≤ 64.
Proof.
  intros Ha Hb.
  assert (Hl : 0 ≤ Z.land a 3 < 4).
  { change 3 with (Z.ones 2). rewrite Z.land_ones by lia.
    apply Z.mod_pos_bound. lia. }
  assert (Hr : 0 ≤ Z.shiftr b 4 < 16).
  { rewrite Z.shiftr_div_pow2 by lia. change (2 ^ 4) with 16.
    split; [apply Z.div_pos; lia | apply Z.div_lt_upper_bound; lia]. }
  rewrite Z.shiftl_mul_pow2 by lia. change (2 ^ 4) with 16.
  pose proof (lor_bound 6 (Z.land a 3 * 16) (Z.shiftr b 4)) as Hlor.
  change (2 ^ 6) with 64 in Hlor. lia.
Qed.

Lemma index3_range (b c : Z) :
  0 ≤ b < 256 → 0 ≤ c < 256 →
  0 ≤ Z.lor (Z.shiftl (Z.land b 15) 2) (Z.shiftr c 6) ≤ 64.
Proof.
  intros Hb Hc.
  assert (Hl : 0 ≤ Z.land b 15 < 16).
  { change 15 with (Z.ones 4). rewrite Z.land_ones by lia.
    apply Z.mod_pos_bound. lia. }
  assert (Hr : 0 ≤ Z.shiftr c 6 < 4).
  { rewrite Z.shiftr_div_pow2 by lia. change (2 ^ 6) with 64.
    split; [apply Z.div_pos; lia | apply Z.div_lt_upper_bound; lia]. }
  rewrite Z.shiftl_mul_pow2 by lia. change (2 ^ 2) with 4.
  pose proof (lor_bound 6 (Z.land b 15 * 4) (Z.shiftr c 6)) as Hlor.
  change (2 ^ 6) with 64 in Hlor. lia.
Qed.

Lemma index4_range (c : Z) : 0 ≤ c < 256 → 0 ≤ Z.land c 63 ≤ 64.
Proof.
  intros Hc. change 63 with (Z.ones 6). rewrite Z.land_ones by lia.
  pose proof (Z.mod_pos_bound c (2 ^ 6)) as Hm. change (2 ^ 6) with 64 in *. lia.
Qed.

(** One round of the loop appends exactly four characters. *)
Lemma group_length (str : list Z) (i : nat) :
  Forall (fun c => 0 ≤ c < 256) str → String.length (btoa_group str i) = 4%nat.
Proof.
  intros Hbytes. unfold btoa_group. cbv zeta.
  destruct (chars_at_defined (Z.shiftr (toInt32 (charCodeAt str i)) 2)) as [c1 ->].
  { apply index1_range. apply toInt32_byte; assumption. }
  destruct (chars_at_defined
              (Z.lor (Z.shiftl (Z.land (toInt32 (charCodeAt str i)) 3) 4)
                 (Z.shiftr (toInt32 (charCodeAt str (i + 1))) 4))) as [c2 ->].
  { apply index2_range; apply toInt32_byte; assumption. }
  destruct (chars_at_defined
              (if isNaN (charCodeAt str (i + 1)) then 64
               else Z.lor (Z.shiftl (Z.land (toInt32 (charCodeAt str (i + 1))) 15) 2)
                      (Z.shiftr (toInt32 (charCodeAt str (i + 2))) 6))) as [c3 ->].
  { destruct (isNaN (charCodeAt str (i + 1))); [lia|].
    apply index3_range; apply toInt32_byte; assumption. }
  destruct (chars_at_defined
              (if isNaN (charCodeAt str (i + 2)) then 64
               else Z.land (toInt32 (charCodeAt str (i + 2))) 63)) as [c4 ->].
  { destruct (isNaN (charCodeAt str (i + 2))); [lia|].
    apply index4_range. apply toInt32_byte; assumption. }
  reflexivity.
Qed.

Lemma btoa_loop_length (fuel : nat) (str : list Z) (i : nat) (output : string) :
  Forall (fun c => 0 ≤ c < 256) str →
  ((length str - i + 2) / 3 ≤ fuel)%nat →
  String.length (btoa_loop fuel str i output)
  = (String.length output + 4 * ((length str - i + 2) / 3))%nat.
Proof.
  intros Hbytes. revert i output.
  induction fuel as [|fuel IH]; intros i output Hfuel; cbn [btoa_loop].
  - assert ((length str - i + 2) / 3 = 0)%nat as -> by lia. lia.
  - destruct (Nat.ltb_spec i (length str)) as [Hlt|Hge].
    + assert (Hdiv : ((length str - i + 2) / 3
                      = 1 + (length str - (i + 3) + 2) / 3)%nat).
      { destruct (Nat.le_gt_cases (i + 3) (length str)) as [Hle|Hgt].
        - replace (length str - i + 2)%nat
            with (1 * 3 + (length str - (i + 3) + 2))%nat by lia.
          rewrite Nat.div_add_l by lia. reflexivity.
        - replace (length str - (i + 3))%nat with 0%nat by lia.
          assert (Hs : (length str - i + 2 = 3 ∨ length str - i + 2 = 4)%nat) by lia.
          destruct Hs as [-> | ->]; reflexivity. }
      rewrite IH by lia.
      rewrite length_string_app, group_length by assumption. lia.
    + replace (length str - i)%nat with 0%nat by lia. cbn. lia.
Qed.

(** With that much fuel the loop of [btoa] ends on its own test: more fuel
    changes nothing. *)
Lemma btoa_loop_S (fuel : nat) (str : list Z) (i : nat) (output : string) :
  btoa_loop (S fuel) str i output
  = if (i <? length str)%nat
    then btoa_loop fuel str (i + 3) (output +:+ btoa_group str i)
    else output.
Proof. reflexivity. Qed.

Lemma btoa_loop_enough (fuel : nat) (str : list Z) (i : nat) (output : string) :
  ((length str - i + 2) / 3 ≤ fuel)%nat →
  btoa_loop (S fuel) str i output = btoa_loop fuel str i output.
Proof.
  revert i output. induction fuel as [|fuel IH]; intros i output Hfuel.
  - rewrite btoa_loop_S.
    destruct (Nat.ltb_spec i (length str)) as [Hlt|Hge]; [|reflexivity].
    exfalso.
    assert (1 ≤ (length str - i + 2) / 3)%nat; [|lia].
    apply Nat.div_le_lower_bound; lia.
  - rewrite (btoa_loop_S (S fuel) str i output), (btoa_loop_S fuel str i output).
    destruct (Nat.ltb_spec i (length str)) as [Hlt|Hge]; [|reflexivity].
    apply IH.
    destruct (Nat.le_gt_cases (i + 3) (length str)) as [Hle|Hgt].
    + replace (length str - i + 2)%nat
        with (1 * 3 + (length str - (i + 3) + 2))%nat in Hfuel by lia.
      rewrite Nat.div_add_l in Hfuel by lia. lia.
    + replace (length str - (i + 3))%nat with 0%nat by lia. cbn. lia.
Qed.

(** The string built from a byte array has the bytes as its code units. *)
Lemma collect_seq {A} (g : nat → A) (n : nat) :
  foldl (fun acc i => (acc ++ [g i])%list) [] (seq 0 n) = map g (seq 0 n).
Proof.
  induction n as [|n IH]; [reflexivity|].
  rewrite seq_S, foldl_app, map_app, IH. reflexivity.
Qed.

Lemma binary_of_bytes (bytes : list Z) :
  Forall (fun b => 0 ≤ b < 256) bytes → binary_of bytes = bytes.
Proof.
  intros Hbytes. unfold binary_of.
  rewrite (collect_seq (fun i => default 0 (bytes !! i) mod 65536)).
  apply list_eq. intros i. rewrite list_lookup_fmap.
  destruct (bytes !! i) as [b|] eqn:Hb.
  - rewrite lookup_seq_lt by (eapply lookup_lt_Some; eassumption).
    cbn. rewrite Hb. cbn. f_equal.
    rewrite Forall_lookup in Hbytes. specialize (Hbytes _ _ Hb).
    apply Z.mod_small. lia.
  - rewrite lookup_seq_ge; [reflexivity|].
    apply lookup_ge_None. exact Hb.
Qed.

(** C7.  On a string of byte values, the client's [btoa] returns four
    characters for every group of three bytes, the last group counted whole:
    its length is four times the length of the input divided by three and
    rounded up, which is four thirds of the input length and at most eight
    thirds of a character more.  The dummy audio of 10240 bytes is encoded in
    13656 characters. *)
Theorem btoa_length :
  (∀ str : list Z,
     Forall (fun c => 0 ≤ c < 256) str →
     String.length (btoa str) = (4 * ((length str + 2) / 3))%nat
     ∧ (4 * length str ≤ 3 * String.length (btoa str) ≤ 4 * length str + 8)%nat)
  ∧ (∀ W : Waveforms, String.length generateDummyAudio = (4 * 3414)%nat).
Proof.
  assert (Hlen : ∀ str : list Z,
            Forall (fun c => 0 ≤ c < 256) str →
            String.length (btoa str) = (4 * ((length str + 2) / 3))%nat).
  { intros str Hbytes. unfold btoa.
    rewrite btoa_loop_length; [|assumption|].
    - rewrite Nat.sub_0_r. reflexivity.
    - rewrite Nat.sub_0_r.
      pose proof (Nat.div_mod_eq (length str + 2) 3).
      pose proof (Nat.mod_upper_bound (length str + 2) 3). lia. }
  split.
  - intros str Hbytes. split; [apply Hlen; assumption|].
    rewrite Hlen by assumption.
    pose proof (Nat.div_mod_eq (length str + 2) 3).
    pose proof (Nat.mod_upper_bound (length str + 2) 3). lia.
  - intros W. unfold generateDummyAudio. cbv zeta.
    rewrite binary_of_bytes by apply fill_alloc_bytes.
    rewrite Hlen by apply fill_alloc_bytes.
    rewrite fill_alloc, length_map, length_seq. reflexivity.
Qed.

Lemma btoa_length_witness :
  String.length (btoa [77; 97]) = 4%nat
  ∧ (4 * length [77%Z; 97%Z] ≤ 3 * String.length (btoa [77%Z; 97%Z])
     ≤ 4 * length [77%Z; 97%Z] + 8)%nat.
Proof.
  apply (proj1 btoa_length [77; 97]).
  repeat (constructor; [lia|]). constructor.
Defined.

(** Outside the byte values the length can differ: an index past the end of
    [chars] reads [undefined], which is added as text. *)
Lemma btoa_beyond_bytes : btoa [300] = "undefinedA==".
Proof. reflexivity. Qed.

End ClientFacts.

(** * Further properties of the code *)

(** ** The translation worker *)

Module TranslationMore.
Import JS JSFacts Translation TranslationFacts.
Local Open Scope string_scope.
Local Open Scope Z_scope.

(** No dictionary has the empty string among its keys. *)
Lemma empty_not_a_key (sourceLang targetLang : string) :
  mappings_of sourceLang targetLang !! EmptyString = None.
Proof.
  unfold mappings_of.
  destruct (TRANSLATIONS !! dict_key sourceLang targetLang) as [m|] eqn:Hm;
    [|apply lookup_empty].
  cbn [default]. unfold TRANSLATIONS in Hm. apply elem_of_list_to_map_2 in Hm.
  repeat (apply elem_of_cons in Hm as [Hm|Hm];
          [injection Hm as _ ->; vm_compute; reflexivity|]).
  apply elem_of_nil in Hm. contradiction.
Qed.

(** A truthy value never joins as the empty text. *)
Lemma join_item_truthy (v : jsval) : truthy v = true → join_item v ≠ EmptyString.
Proof.
  destruct v as [|s|p]; cbn.
  - discriminate.
  - destruct s; [discriminate | intros _; discriminate].
  - intros _. destruct (String.eqb p "__proto__"); [discriminate|].
    destruct (String.eqb p "constructor"); discriminate.
Qed.

Lemma append_empty (s1 s2 : string) :
  s1 +:+ s2 = EmptyString → s1 = EmptyString ∧ s2 = EmptyString.
Proof. destruct s1; [auto | discriminate]. Qed.

(** Only the array of one empty text, and the empty array, join to the empty
    text. *)
Lemma join_empty (l : list string) :
  join " " l = EmptyString → l = [] ∨ l = [EmptyString].
Proof.
  destruct l as [|x l]; [auto|].
  destruct l as [|y l]; cbn [join].
  - intros ->. auto.
  - intros Hj. apply append_empty in Hj as [_ Hj]. discriminate.
Qed.

Section WithEngine.
Context {engine : Engine}.

Lemma translateText_own_entry (text sourceLang targetLang v : string) (w : World) :
  sourceLang ≠ targetLang →
  mappings_of sourceLang targetLang !! trim (toLowerCase text) = Some v →
  translateText text sourceLang targetLang w
  = (Returned {| translated := VStr v; processingTime := w 1%nat - w 0%nat |},
     fun n => w (S (S n))).
Proof.
  intros Hne Hown.
  rewrite translateText_exact; [|assumption|].
  - rewrite (get_own _ _ _ Hown). reflexivity.
  - eapply truthy_own. exact Hown.
Qed.

Lemma translateText_marked (text sourceLang targetLang : string) (w : World) :
  sourceLang ≠ targetLang →
  get (mappings_of sourceLang targetLang) (trim (toLowerCase text)) = VUndefined →
  Forall (fun word => get (mappings_of sourceLang targetLang) word = VUndefined
                      ∨ get (mappings_of sourceLang targetLang) word = VStr word)
    (split (trim (toLowerCase text))) →
  translateText text sourceLang targetLang w
  = (Returned {| translated := VStr ("[" +:+ toUpperCase targetLang +:+ "] " +:+ text);
                 processingTime := w 1%nat - w 0%nat |},
     fun n => w (S (S n))).
Proof.
  intros Hne Hphrase Hwords.
  rewrite translateText_words; [|assumption|].
  - cbv zeta. rewrite translate_words_unchanged by assumption.
    rewrite join_split, String.eqb_refl. reflexivity.
  - rewrite Hphrase. reflexivity.
Qed.

(** Text that is empty once lowercased and trimmed, blank text in particular,
    is answered with the marker and the text as it came, for any two different
    language codes. *)
Theorem blank_text_is_marked (text sourceLang targetLang : string) (w : World) :
  sourceLang ≠ targetLang →
  trim (toLowerCase text) = EmptyString →
  translateText text sourceLang targetLang w
  = (Returned {| translated := VStr ("[" +:+ toUpperCase targetLang +:+ "] " +:+ text);
                 processingTime := w 1%nat - w 0%nat |},
     fun n => w (S (S n))).
Proof.
  intros Hne Hblank.
  assert (Hu : get (mappings_of sourceLang targetLang) EmptyString = VUndefined).
  { apply get_undefined. split; [apply empty_not_a_key|].
    intros Hin. unfold Object_prototype in Hin.
    repeat (apply elem_of_cons in Hin as [Hin|Hin]; [discriminate|]).
    apply elem_of_nil in Hin. contradiction. }
  apply translateText_marked; [assumption | |]; rewrite Hblank.
  - exact Hu.
  - cbn [split]. constructor; [left; exact Hu | constructor].
Qed.

(** A language pair [TRANSLATIONS] has no dictionary for is answered with the
    marker and the original text, whatever the text, as long as neither the
    normalized text nor a word of it names a member of [Object.prototype]. *)
Theorem unsupported_pair_is_marked (text sourceLang targetLang : string) (w : World) :
  sourceLang ≠ targetLang →
  TRANSLATIONS !! dict_key sourceLang targetLang = None →
  trim (toLowerCase text) ∉ Object_prototype →
  Forall (fun word => word ∉ Object_prototype) (split (trim (toLowerCase text))) →
  translateText text sourceLang targetLang w
  = (Returned {| translated := VStr ("[" +:+ toUpperCase targetLang +:+ "] " +:+ text);
                 processingTime := w 1%nat - w 0%nat |},
     fun n => w (S (S n))).
Proof.
  intros Hne Hnone Hphrase Hwords.
  assert (Hempty : mappings_of sourceLang targetLang = ∅).
  { unfold mappings_of. rewrite Hnone. reflexivity. }
  assert (Hu : ∀ k, k ∉ Object_prototype →
                    get (mappings_of sourceLang targetLang) k = VUndefined).
  { intros k Hk. apply get_undefined. split; [|exact Hk].
    rewrite Hempty. apply lookup_empty. }
  apply translateText_marked; [assumption | auto |].
  eapply Forall_impl; [exact Hwords|]. intros word Hword. left. auto.
Qed.

(** Two texts with the same lowercased and trimmed form get the same
    translation, or each gets the marker in front of its own original. *)
Theorem same_normal_form_same_translation
  (text1 text2 sourceLang targetLang : string) (w1 w2 : World) :
  sourceLang ≠ targetLang →
  trim (toLowerCase text1) = trim (toLowerCase text2) →
  ∃ r1 r2 w1' w2',
    translateText text1 sourceLang targetLang w1 = (Returned r1, w1')
    ∧ translateText text2 sourceLang targetLang w2 = (Returned r2, w2')
    ∧ (translated r1 = translated r2
       ∨ (translated r1 = VStr ("[" +:+ toUpperCase targetLang +:+ "] " +:+ text1)
          ∧ translated r2 = VStr ("[" +:+ toUpperCase targetLang +:+ "] " +:+ text2))).
Proof.
  intros Hne Hsame.
  destruct (truthy (get (mappings_of sourceLang targetLang) (trim (toLowerCase text1))))
    eqn:Ht.
  - do 4 eexists. split; [apply translateText_exact; assumption|].
    split; [apply translateText_exact; [assumption | rewrite <- Hsame; exact Ht]|].
    left. cbn [translated]. rewrite Hsame. reflexivity.
  - do 4 eexists. split; [apply translateText_words; assumption|].
    split; [apply translateText_words; [assumption | rewrite <- Hsame; exact Ht]|].
    cbn [translated]. cbv zeta. rewrite <- Hsame.
    destruct (String.eqb _ (trim (toLowerCase text1))); [right | left]; auto.
Qed.

(** For two different language codes the translated value is never the empty
    string and never [undefined]. *)
Theorem translation_never_empty (text sourceLang targetLang : string) (w : World) :
  sourceLang ≠ targetLang →
  ∃ r w', translateText text sourceLang targetLang w = (Returned r, w')
          ∧ truthy (translated r) = true.
Proof.
  intros Hne.
  destruct (truthy (get (mappings_of sourceLang targetLang) (trim (toLowerCase text))))
    eqn:Ht.
  - do 2 eexists. split; [apply translateText_exact; assumption | exact Ht].
  - do 2 eexists. split; [apply translateText_words; assumption|].
    cbn [translated]. cbv zeta.
    set (m := mappings_of sourceLang targetLang).
    set (n := trim (toLowerCase text)).
    destruct (String.eqb_spec (join " " (map join_item (map (translate_word m) (split n)))) n)
      as [Heq|Hdiff]; [reflexivity|].
    cbn [truthy].
    destruct (String.eqb_spec (join " " (map join_item (map (translate_word m) (split n))))
                EmptyString) as [Hnil|]; [|reflexivity].
    exfalso. apply Hdiff. rewrite Hnil.
    apply join_empty in Hnil as [Hnil|Hnil].
    + apply fmap_nil_inv, fmap_nil_inv in Hnil. exfalso.
      eapply split_nonempty. exact Hnil.
    + destruct (split n) as [|word [|word' l]] eqn:Hsplit; try discriminate.
      injection Hnil as Hword.
      assert (Hw : word = EmptyString).
      { unfold translate_word in Hword.
        destruct (truthy (get m word)) eqn:Htw.
        - apply join_item_truthy in Htw. contradiction.
        - exact Hword. }
      subst word. rewrite <- (join_split n), Hsplit. reflexivity.
Qed.

(** Round trip through English.  A phrase with an entry in the es-en (fr-en)
    dictionary, translated to English and back, is the phrase again, when the
    lowercasing of the engine keeps the phrase and its entry. *)
Theorem round_trip_through_english (sourceLang k v : string) (w1 w2 : World) :
  (sourceLang = "es" ∨ sourceLang = "fr") →
  mappings_of sourceLang "en" !! k = Some v →
  toLowerCase k = k →
  toLowerCase v = v →
  translateText k sourceLang "en" w1
  = (Returned {| translated := VStr v; processingTime := w1 1%nat - w1 0%nat |},
     fun n => w1 (S (S n)))
  ∧ translateText v "en" sourceLang w2
    = (Returned {| translated := VStr k; processingTime := w2 1%nat - w2 0%nat |},
       fun n => w2 (S (S n))).
Proof.
  intros Hlang Hk Hlk Hlv.
  assert (Hfacts : trim k = k ∧ trim v = v
                   ∧ mappings_of "en" sourceLang !! v = Some k
                   ∧ sourceLang ≠ "en").
  { destruct Hlang as [-> | ->].
    - change (mappings_of "es" "en") with es_en in Hk. unfold es_en in Hk.
      apply elem_of_list_to_map_2 in Hk.
      repeat (apply elem_of_cons in Hk as [Hk|Hk];
              [injection Hk as -> ->;
               repeat split; try (vm_compute; reflexivity); discriminate|]).
      apply elem_of_nil in Hk. contradiction.
    - change (mappings_of "fr" "en") with fr_en in Hk. unfold fr_en in Hk.
      apply elem_of_list_to_map_2 in Hk.
      repeat (apply elem_of_cons in Hk as [Hk|Hk];
              [injection Hk as -> ->;
               repeat split; try (vm_compute; reflexivity); discriminate|]).
      apply elem_of_nil in Hk. contradiction. }
  destruct Hfacts as (Htk & Htv & Hback & Hne).
  split.
  - apply translateText_own_entry; [assumption|]. rewrite Hlk, Htk. exact Hk.
  - apply translateText_own_entry; [congruence|]. rewrite Hlv, Htv. exact Hback.
Qed.

(** The [TranslateText] handler calls back exactly for the timestamps a [Date]
    can hold: then with a response, never with an error; beyond, it throws the
    [RangeError] of the banner after the first reading of the clock. *)
Theorem translate_handler_answers_in_date_range (request : TextRequest) (w : World) :
  (Z.abs (timestamp request) ≤ MAX_TIME_VALUE →
   ∃ resp w',
     handleTranslateText request w = (Returned (Callback None (Some resp)), w')
     ∧ original_text resp = text request
     ∧ success resp = true
     ∧ error_message resp = EmptyString)
  ∧ (MAX_TIME_VALUE < Z.abs (timestamp request) →
     handleTranslateText request w
     = (Thrown (mkError "RangeError" "Invalid time value"), fun n => w (S n)))
  ∧ ((∃ cb w', handleTranslateText request w = (Returned cb, w'))
     ↔ Z.abs (timestamp request) ≤ MAX_TIME_VALUE).
Proof.
  destruct (translateText_total (text request) (source_language request)
              (target_language request)) as [v Hv].
  split; [|split].
  - intros Hts. do 2 eexists.
    split; [apply handleTranslateText_in_range; eassumption|].
    repeat split.
  - apply handleTranslateText_out_of_range.
  - split.
    + intros (cb & w' & Hrun).
      destruct (Z.le_gt_cases (Z.abs (timestamp request)) MAX_TIME_VALUE) as [Hts|Hts];
        [exact Hts|].
      rewrite handleTranslateText_out_of_range in Hrun by assumption. discriminate.
    + intros Hts. do 2 eexists. apply handleTranslateText_in_range; eassumption.
Qed.

Lemma monotone_le (w : World) (i j : nat) :
  monotone w → (i ≤ j)%nat → w i ≤ w j.
Proof.
  intros Hw Hij. induction Hij as [|j Hij IH]; [lia|].
  specialize (Hw j). lia.
Qed.

Lemma mapM_translate_one_times (requests : list TextRequest) (w : World) :
  monotone w →
  ∃ resps w',
    mapM translate_one requests w = (Returned resps, w')
    ∧ (∀ n, w' n = w (2 * length requests + n)%nat)
    ∧ Forall (fun resp => 0 ≤ processing_time_ms resp) resps
    ∧ foldr Z.add 0 (map processing_time_ms resps)
      ≤ w (2 * length requests)%nat - w 0%nat.
Proof.
  revert w. induction requests as [|req requests IH]; intros w Hw.
  - exists [], w. repeat split; [constructor | cbn; lia].
  - destruct (translateText_total (text req) (source_language req)
                (target_language req)) as [v Hv].
    assert (Hw2 : monotone (fun n => w (S (S n)))) by (intros n; apply Hw).
    destruct (IH _ Hw2) as (resps & w' & Hrun & Hw' & Hpos & Hsum).
    eexists (_ :: resps), w'. split; [|split; [|split]].
    + cbn [mapM]. unfold bind at 1. unfold translate_one at 1. unfold bind at 1.
      rewrite Hv. cbn [ret]. unfold bind at 1. rewrite Hrun. reflexivity.
    + intros n. rewrite Hw'. f_equal. cbn [length]. lia.
    + constructor; [|exact Hpos]. cbn. specialize (Hw 0%nat). lia.
    + cbn [map foldr processing_time_ms processingTime length].
      replace (2 * S (length requests))%nat with (S (S (2 * length requests))) by lia.
      pose proof (Hw 0%nat). pose proof (Hw 1%nat). lia.
Qed.

(** On a clock that never runs backwards, no response of a batch reports a
    negative time, and the total time the batch reports is at least the sum of
    the times of its responses. *)
Theorem batch_total_time_bounds_items (requests : list TextRequest) (w : World) :
  monotone w →
  ∃ resps total w',
    handleTranslateBatch requests w
    = (Returned (Callback None (Some
         {| responses := resps; total_processing_time_ms := total |})), w')
    ∧ Forall (fun resp => 0 ≤ processing_time_ms resp) resps
    ∧ foldr Z.add 0 (map processing_time_ms resps) ≤ total.
Proof.
  intros Hw.
  assert (Hw1 : monotone (fun n => w (S n))) by (intros n; apply Hw).
  destruct (mapM_translate_one_times requests _ Hw1)
    as (resps & w' & Hrun & Hw' & Hpos & Hsum).
  exists resps, (w' 0%nat - w 0%nat), (fun n => w' (S n)).
  split; [|split; [exact Hpos|]].
  - unfold handleTranslateBatch, bind. cbn [Date_now]. rewrite Hrun. reflexivity.
  - rewrite Hw'. rewrite Nat.add_0_r. pose proof (Hw 0%nat).
    cbn beta in Hsum. lia.
Qed.

End WithEngine.

Lemma blank_text_is_marked_witness :
  translateText (engine := ascii_engine) "   " "en" "fr" (fun n => Z.of_nat n)
  = (Returned {| translated := VStr "[FR]    "; processingTime := 1 |},
     fun n => Z.of_nat (S (S n))).
Proof.
  apply (blank_text_is_marked (engine := ascii_engine) "   " "en" "fr").
  - discriminate.
  - reflexivity.
Defined.

Lemma unsupported_pair_is_marked_witness :
  translateText (engine := ascii_engine) "Guten Tag" "de" "en" (fun n => Z.of_nat n)
  = (Returned {| translated := VStr "[EN] Guten Tag"; processingTime := 1 |},
     fun n => Z.of_nat (S (S n))).
Proof.
  apply (unsupported_pair_is_marked (engine := ascii_engine) "Guten Tag" "de" "en").
  - discriminate.
  - reflexivity.
  - apply (bool_decide_eq_false_1 (_ ∈ Object_prototype)). reflexivity.
  - repeat (constructor;
            [apply (bool_decide_eq_false_1 (_ ∈ Object_prototype)); reflexivity|]).
    constructor.
Defined.

Lemma same_normal_form_same_translation_witness :
  ∃ r1 r2 w1' w2',
    translateText (engine := ascii_engine) "  HELLO Friend" "en" "es" (fun _ => 0)
    = (Returned r1, w1')
    ∧ translateText (engine := ascii_engine) "hello friend " "en" "es" (fun _ => 0)
      = (Returned r2, w2')
    ∧ (translated r1 = translated r2
       ∨ (translated r1 = VStr ("[" +:+ "ES" +:+ "] " +:+ "  HELLO Friend")
          ∧ translated r2 = VStr ("[" +:+ "ES" +:+ "] " +:+ "hello friend "))).
Proof.
  apply (same_normal_form_same_translation (engine := ascii_engine)
           "  HELLO Friend" "hello friend " "en" "es").
  - discriminate.
  - reflexivity.
Defined.

Lemma translation_never_empty_witness :
  ∃ r w',
    translateText (engine := ascii_engine) "" "en" "es" (fun _ => 0) = (Returned r, w')
    ∧ truthy (translated r) = true.
Proof.
  apply (translation_never_empty (engine := ascii_engine) "" "en" "es").
  discriminate.
Defined.

Lemma round_trip_through_english_witness :
  translateText (engine := ascii_engine) "buenas noches" "es" "en" (fun _ => 0)
  = (Returned {| translated := VStr "good night"; processingTime := 0 |}, fun _ => 0)
  ∧ translateText (engine := ascii_engine) "good night" "en" "es" (fun _ => 0)
    = (Returned {| translated := VStr "buenas noches"; processingTime := 0 |},
       fun _ => 0).
Proof.
  apply (round_trip_through_english (engine := ascii_engine) "es"
           "buenas noches" "good night" (fun _ => 0) (fun _ => 0)).
  - left. reflexivity.
  - reflexivity.
  - reflexivity.
  - reflexivity.
Defined.

Lemma translate_handler_answers_in_date_range_witness :
  handleTranslateText (engine := ascii_engine)
    (mkTextRequest "hello" "en" "es" "u1" (-8640000000000001)) (fun n => Z.of_nat n)
  = (Thrown (mkError "RangeError" "Invalid time value"), fun n => Z.of_nat (S n)).
Proof.
  apply (proj1 (proj2 (translate_handler_answers_in_date_range (engine := ascii_engine)
           (mkTextRequest "hello" "en" "es" "u1" (-8640000000000001))
           (fun n => Z.of_nat n)))).
  reflexivity.
Defined.

Lemma batch_total_time_bounds_items_witness :
  ∃ resps total w',
    handleTranslateBatch (engine := ascii_engine)
      [ mkTextRequest "hello" "en" "es" "u1" 0;
        mkTextRequest "thank you" "en" "de" "u1" 0 ] (fun n => Z.of_nat n)
    = (Returned (Callback None (Some
         {| responses := resps; total_processing_time_ms := total |})), w')
    ∧ Forall (fun resp => 0 ≤ processing_time_ms resp) resps
    ∧ foldr Z.add 0 (map processing_time_ms resps) ≤ total.
Proof.
  apply (batch_total_time_bounds_items (engine := ascii_engine)).
  intros n. lia.
Defined.

End TranslationMore.

(** ** The audio worker *)

Module AudioMore.
Import JS JSFacts Audio AudioFacts.
Local Open Scope string_scope.
Local Open Scope Z_scope.

(** What the [data] listener has collected after a run of chunks. *)
Lemma stream_collected (stream : list AudioChunk) (st : StreamState) :
  startTime (foldl stream_on_data st stream) = startTime st
  ∧ chunks (foldl stream_on_data st stream) = (chunks st ++ map data stream)%list
  ∧ targetLanguage (foldl stream_on_data st stream)
    = foldl (fun t chunk => or_else (chunk_target_language chunk) t)
        (targetLanguage st) stream.
Proof.
  revert st. induction stream as [|chunk stream IH]; intros st; cbn [foldl map].
  - rewrite app_nil_r. auto.
  - destruct (IH (stream_on_data st chunk)) as (Hstart & Hchunks & Htarget).
    rewrite Hstart, Hchunks, Htarget. cbn. rewrite <- app_assoc. auto.
Qed.

Lemma last_target_none (stream : list AudioChunk) (t : string) :
  Forall (fun chunk => chunk_target_language chunk = EmptyString) stream →
  foldl (fun t chunk => or_else (chunk_target_language chunk) t) t stream = t.
Proof.
  intros Hall. revert t. induction Hall as [|chunk stream Hchunk _ IH]; intros t.
  - reflexivity.
  - cbn [foldl]. rewrite IH, Hchunk. reflexivity.
Qed.

Section WithWaveforms.
Context {waves : Waveforms}.

Lemma handleProcessAudioStream_run (stream : list AudioChunk) (w : World) :
  let target :=
    foldl (fun t chunk => or_else (chunk_target_language chunk) t) EmptyString stream in
  let fullAudio := concat (map data stream) in
  handleProcessAudioStream stream w
  = (Returned (Callback None (Some
       {| translated_audio :=
            (Buffer_from (header_text "en" target)
             ++ map (fun i => wave_0_01 i mod 256)
                  (seq 0 (Nat.max (length fullAudio) 1024)))%list;
          resp_audio_format := "wav";
          resp_source_language := "en";
          resp_target_language := target;
          success := true;
          error_message := EmptyString;
          processing_time_ms := w 3%nat - w 0%nat;
          original_size := length fullAudio;
          processed_size :=
            (Nat.max (length fullAudio) 1024
             + String.length (header_text "en" target))%nat |})),
     fun n => w (S (S (S (S n))))).
Proof.
  intros target fullAudio.
  unfold handleProcessAudioStream, stream_open, bind. cbn [Date_now ret].
  unfold stream_on_end, bind.
  destruct (stream_collected stream
              {| startTime := w 0%nat; chunks := []; userId := EmptyString;
                 targetLanguage := EmptyString |}) as (Hstart & Hchunks & Htarget).
  rewrite Hstart, Hchunks, Htarget. cbn [startTime chunks targetLanguage app].
  rewrite generateTranslatedAudio_run. reflexivity.
Qed.

(** [ProcessAudio] never looks at the bytes it is sent: two requests with the
    same language codes whose inputs have the same size, or both at most 1024
    bytes, are answered with the same audio and the same processed size. *)
Theorem processed_audio_ignores_content (request1 request2 : AudioRequest)
  (w1 w2 : World) :
  source_language request1 = source_language request2 →
  target_language request1 = target_language request2 →
  Nat.max (length (audio_data request1)) 1024
  = Nat.max (length (audio_data request2)) 1024 →
  ∃ resp1 resp2 w1' w2',
    handleProcessAudio request1 w1 = (Returned (Callback None (Some resp1)), w1')
    ∧ handleProcessAudio request2 w2 = (Returned (Callback None (Some resp2)), w2')
    ∧ translated_audio resp1 = translated_audio resp2
    ∧ processed_size resp1 = processed_size resp2.
Proof.
  intros Hs Ht Hmax. do 4 eexists.
  split; [apply handleProcessAudio_run|]. split; [apply handleProcessAudio_run|].
  cbn [translated_audio processed_size]. rewrite Hs, Ht, Hmax. split; reflexivity.
Qed.

(** The audio returned for a shorter input is a prefix of the audio returned
    for a longer one, for the same language codes: a longer input only adds
    samples at the end. *)
Theorem processed_audio_grows_by_suffix (request1 request2 : AudioRequest)
  (w1 w2 : World) :
  source_language request1 = source_language request2 →
  target_language request1 = target_language request2 →
  (length (audio_data request1) ≤ length (audio_data request2))%nat →
  ∃ resp1 resp2 w1' w2' more,
    handleProcessAudio request1 w1 = (Returned (Callback None (Some resp1)), w1')
    ∧ handleProcessAudio request2 w2 = (Returned (Callback None (Some resp2)), w2')
    ∧ translated_audio resp2 = (translated_audio resp1 ++ more)%list
    ∧ length more
      = (Nat.max (length (audio_data request2)) 1024
         - Nat.max (length (audio_data request1)) 1024)%nat.
Proof.
  intros Hs Ht Hlen.
  set (n1 := Nat.max (length (audio_data request1)) 1024).
  set (n2 := Nat.max (length (audio_data request2)) 1024).
  do 4 eexists. exists (map (fun i => wave_0_01 i mod 256) (seq n1 (n2 - n1))).
  split; [apply handleProcessAudio_run|]. split; [apply handleProcessAudio_run|].
  cbn [translated_audio]. fold n1 n2. rewrite Hs, Ht. split.
  - rewrite <- app_assoc, <- map_app. do 2 f_equal.
    replace n2 with (n1 + (n2 - n1))%nat at 1 by lia.
    apply seq_app.
  - rewrite length_map, length_seq. reflexivity.
Qed.

(** A stream of chunks is answered like the single request that carries the
    concatenation of their data, with the source language en and the target
    language the stream ends up with: the same audio and the same sizes,
    however the data is cut into chunks. *)
Theorem stream_answers_like_unary (stream : list AudioChunk) (w : World) :
  ∃ resp w',
    handleProcessAudioStream stream w = (Returned (Callback None (Some resp)), w')
    ∧ success resp = true
    ∧ resp_source_language resp = "en"
    ∧ original_size resp = length (concat (map data stream))
    ∧ ∀ fmt uid rate ch w1,
        ∃ unary w1',
          handleProcessAudio
            (mkAudioRequest (concat (map data stream)) fmt "en"
               (resp_target_language resp) uid rate ch) w1
          = (Returned (Callback None (Some unary)), w1')
          ∧ translated_audio unary = translated_audio resp
          ∧ processed_size unary = processed_size resp
          ∧ original_size unary = original_size resp.
Proof.
  do 2 eexists. split; [apply handleProcessAudioStream_run|].
  cbn [success resp_source_language original_size resp_target_language
       translated_audio processed_size].
  repeat split.
  intros fmt uid rate ch w1. do 2 eexists.
  split; [apply handleProcessAudio_run|]. repeat split.
Qed.

(** The target language of a stream is the one of the last chunk that names
    one, and the empty string when no chunk does. *)
Theorem stream_target_is_last_named (stream : list AudioChunk) (w : World) :
  ∃ resp w',
    handleProcessAudioStream stream w = (Returned (Callback None (Some resp)), w')
    ∧ (Forall (fun chunk => chunk_target_language chunk = EmptyString) stream →
       resp_target_language resp = EmptyString)
    ∧ (∀ before chunk after,
         stream = (before ++ chunk :: after)%list →
         chunk_target_language chunk ≠ EmptyString →
         Forall (fun c => chunk_target_language c = EmptyString) after →
         resp_target_language resp = chunk_target_language chunk).
Proof.
  do 2 eexists. split; [apply handleProcessAudioStream_run|].
  cbn [resp_target_language]. split.
  - intros Hall. apply last_target_none. exact Hall.
  - intros before chunk after -> Hnamed Hafter.
    rewrite foldl_app. cbn [foldl]. rewrite last_target_none by assumption.
    unfold or_else.
    destruct (String.eqb_spec (chunk_target_language chunk) EmptyString);
      [contradiction | reflexivity].
Qed.

End WithWaveforms.


Lemma processed_audio_ignores_content_witness :
  ∃ resp1 resp2 w1' w2',
    handleProcessAudio (waves := flat_wave)
      (mkAudioRequest [1; 2; 3] "wav" "en" "es" "u1" 0 0) (fun n => Z.of_nat n)
    = (Returned (Callback None (Some resp1)), w1')
    ∧ handleProcessAudio (waves := flat_wave)
        (mkAudioRequest [9] "wav" "en" "es" "u2" 0 0) (fun _ => 0)
      = (Returned (Callback None (Some resp2)), w2')
    ∧ translated_audio resp1 = translated_audio resp2
    ∧ processed_size resp1 = processed_size resp2.
Proof.
  apply (processed_audio_ignores_content (waves := flat_wave)); reflexivity.
Defined.

Lemma processed_audio_grows_by_suffix_witness :
  ∃ resp1 resp2 w1' w2' more,
    handleProcessAudio (waves := flat_wave)
      (mkAudioRequest [1; 2; 3] "wav" "en" "es" "u1" 0 0) (fun _ => 0)
    = (Returned (Callback None (Some resp1)), w1')
    ∧ handleProcessAudio (waves := flat_wave)
        (mkAudioRequest (replicate 2000 7) "wav" "en" "es" "u1" 0 0) (fun _ => 0)
      = (Returned (Callback None (Some resp2)), w2')
    ∧ translated_audio resp2 = (translated_audio resp1 ++ more)%list
    ∧ length more
      = (Nat.max (length (replicate 2000 7)) 1024 - Nat.max (length [1; 2; 3]) 1024)%nat.
Proof.
  apply (processed_audio_grows_by_suffix (waves := flat_wave)
           (mkAudioRequest [1; 2; 3] "wav" "en" "es" "u1" 0 0)
           (mkAudioRequest (replicate 2000 7) "wav" "en" "es" "u1" 0 0)).
  - reflexivity.
  - reflexivity.
  - cbn [audio_data]. rewrite length_replicate. cbn [length]. lia.
Defined.

Lemma stream_target_is_last_named_witness :
  ∃ resp w',
    handleProcessAudioStream (waves := flat_wave)
      [ mkAudioChunk [1; 2] 0 "u1" "fr"; mkAudioChunk [3] 1 "" "" ] (fun _ => 0)
    = (Returned (Callback None (Some resp)), w')
    ∧ resp_target_language resp = "fr".
Proof.
  destruct (stream_target_is_last_named (waves := flat_wave)
              [ mkAudioChunk [1; 2] 0 "u1" "fr"; mkAudioChunk [3] 1 "" "" ]
              (fun _ => 0)) as (resp & w' & Hrun & _ & Hlast).
  exists resp, w'. split; [exact Hrun|].
  apply (Hlast [] (mkAudioChunk [1; 2] 0 "u1" "fr") [mkAudioChunk [3] 1 "" ""]).
  - reflexivity.
  - discriminate.
  - repeat constructor.
Defined.

End AudioMore.

(** ** The client's base64 encoder *)

Module ClientMore.
Import JS JSFacts Client ClientFacts.
Local Open Scope string_scope.
Local Open Scope Z_scope.

Lemma append_nil_r (s : string) : s +:+ EmptyString = s.
Proof. induction s as [|c s IH]; [reflexivity|]. rewrite append_cons, IH. reflexivity. Qed.

Lemma append_assoc (s1 s2 s3 : string) : (s1 +:+ s2) +:+ s3 = s1 +:+ (s2 +:+ s3).
Proof.
  induction s1 as [|c s1 IH]; [reflexivity|]. rewrite !append_cons, IH. reflexivity.
Qed.

(** A number shifted left by [k] shares no bit with a number below [2 ^ k],
    so their bitwise or is their sum. *)
Lemma land_shiftl_small (x y k : Z) :
  0 ≤ k → 0 ≤ y < 2 ^ k → Z.land (Z.shiftl x k) y = 0.
Proof.
  intros Hk Hy. apply Z.bits_inj'. intros n Hn.
  rewrite Z.land_spec, Z.bits_0.
  destruct (Z.lt_ge_cases n k) as [Hlt|Hge].
  - rewrite Z.shiftl_spec_low by lia. reflexivity.
  - destruct (Z.eq_dec y 0) as [->|Hy0].
    + rewrite Z.bits_0. apply andb_false_r.
    + rewrite (Z.bits_above_log2 y n); [apply andb_false_r | lia |].
      assert (Z.log2 y < k) by (apply Z.log2_lt_pow2; lia). lia.
Qed.

Lemma lor_shiftl_add (x y k : Z) :
  0 ≤ k → 0 ≤ y < 2 ^ k → Z.lor (Z.shiftl x k) y = x * 2 ^ k + y.
Proof.
  intros Hk Hy.
  pose proof (Z.add_lor_land (Z.shiftl x k) y) as Hadd.
  rewrite land_shiftl_small in Hadd by assumption.
  rewrite Z.shiftl_mul_pow2 in * by assumption. lia.
Qed.

(** The four indices of a round, in arithmetic. *)
Lemma index1_value (a : Z) : Z.shiftr a 2 = a / 4.
Proof. rewrite Z.shiftr_div_pow2 by lia. reflexivity. Qed.

Lemma index2_value (a b : Z) :
  0 ≤ b < 256 →
  Z.lor (Z.shiftl (Z.land a 3) 4) (Z.shiftr b 4) = a mod 4 * 16 + b / 16.
Proof.
  intros Hb.
  assert (Hr : Z.shiftr b 4 = b / 16) by (rewrite Z.shiftr_div_pow2 by lia; reflexivity).
  rewrite lor_shiftl_add; [|lia|].
  - change 3 with (Z.ones 2). rewrite Z.land_ones by lia. rewrite Hr. reflexivity.
  - rewrite Hr. change (2 ^ 4) with 16.
    split; [apply Z.div_pos; lia | apply Z.div_lt_upper_bound; lia].
Qed.

Lemma index3_value (b c : Z) :
  0 ≤ c < 256 →
  Z.lor (Z.shiftl (Z.land b 15) 2) (Z.shiftr c 6) = b mod 16 * 4 + c / 64.
Proof.
  intros Hc.
  assert (Hr : Z.shiftr c 6 = c / 64) by (rewrite Z.shiftr_div_pow2 by lia; reflexivity).
  rewrite lor_shiftl_add; [|lia|].
  - change 15 with (Z.ones 4). rewrite Z.land_ones by lia. rewrite Hr. reflexivity.
  - rewrite Hr. change (2 ^ 2) with 4.
    split; [apply Z.div_pos; lia | apply Z.div_lt_upper_bound; lia].
Qed.

Lemma index4_value (c : Z) : Z.land c 63 = c mod 64.
Proof. change 63 with (Z.ones 6). rewrite Z.land_ones by lia. reflexivity. Qed.

(** The characters of [chars]: one per index, all different, the last one the
    padding sign. *)
Lemma chars_at_char (index : Z) :
  0 ≤ index ≤ 64 → chars_at index = Str (String (char_of index) EmptyString).
Proof.
  intros Hi. destruct (chars_at_defined index Hi) as [c Hc]. rewrite Hc.
  unfold chars_at in Hc. destruct (Z.ltb_spec index 0) as [|_]; [lia|].
  unfold char_of. destruct (String.get (Z.to_nat index) chars); [|discriminate].
  injection Hc as ->. reflexivity.
Qed.

Lemma char_of_inj (i j : Z) :
  0 ≤ i ≤ 64 → 0 ≤ j ≤ 64 → char_of i = char_of j → i = j.
Proof.
  intros Hi Hj Heq.
  assert (Hall : forallb (fun n => forallb (fun m =>
                   implb (Ascii.eqb (char_of (Z.of_nat n)) (char_of (Z.of_nat m)))
                         (Nat.eqb n m)) (seq 0 65)) (seq 0 65) = true)
    by (vm_compute; reflexivity).
  rewrite forallb_forall in Hall.
  specialize (Hall (Z.to_nat i)). rewrite forallb_forall in Hall.
  assert (Hin : ∀ k, 0 ≤ k ≤ 64 → In (Z.to_nat k) (seq 0 65))
    by (intros k Hk; apply in_seq; lia).
  specialize (Hall (Hin i Hi) (Z.to_nat j) (Hin j Hj)).
  rewrite !Z2Nat.id in Hall by lia. rewrite Heq, Ascii.eqb_refl in Hall.
  cbn in Hall. apply Nat.eqb_eq in Hall. lia.
Qed.

Lemma char_of_in_chars (i : Z) : 0 ≤ i ≤ 64 → has_char (char_of i) chars = true.
Proof.
  intros Hi.
  assert (Hall : forallb (fun n => has_char (char_of (Z.of_nat n)) chars) (seq 0 65) = true)
    by (vm_compute; reflexivity).
  rewrite forallb_forall in Hall. specialize (Hall (Z.to_nat i)).
  rewrite Z2Nat.id in Hall by lia. apply Hall. apply in_seq. lia.
Qed.

Lemma char_of_pad (i : Z) : 0 ≤ i < 64 → Ascii.eqb (char_of i) "=" = false.
Proof.
  intros Hi. destruct (Ascii.eqb_spec (char_of i) "=") as [Heq|]; [|reflexivity].
  assert (i = 64); [|lia]. apply char_of_inj; [lia | lia | exact Heq].
Qed.

(** A round on byte values, as four characters. *)
Lemma group_bytes (str : list Z) (i : nat) :
  Forall (fun c => 0 ≤ c < 256) str →
  btoa_group str i
  = String (char_of (Z.shiftr (toInt32 (charCodeAt str i)) 2))
      (String (char_of (Z.lor (Z.shiftl (Z.land (toInt32 (charCodeAt str i)) 3) 4)
                          (Z.shiftr (toInt32 (charCodeAt str (i + 1))) 4)))
         (String (char_of (if isNaN (charCodeAt str (i + 1)) then 64
                           else Z.lor (Z.shiftl (Z.land (toInt32 (charCodeAt str (i + 1))) 15) 2)
                                  (Z.shiftr (toInt32 (charCodeAt str (i + 2))) 6)))
            (String (char_of (if isNaN (charCodeAt str (i + 2)) then 64
                              else Z.land (toInt32 (charCodeAt str (i + 2))) 63))
               EmptyString))).
Proof.
  intros Hbytes. unfold btoa_group. cbv zeta.
  rewrite (chars_at_char (Z.shiftr _ 2))
    by (apply index1_range; apply toInt32_byte; assumption).
  rewrite (chars_at_char (Z.lor _ _))
    by (apply index2_range; apply toInt32_byte; assumption).
  rewrite (chars_at_char (if isNaN (charCodeAt str (i + 1)) then _ else _)).
  2: { destruct (isNaN (charCodeAt str (i + 1))); [lia|].
       apply index3_range; apply toInt32_byte; assumption. }
  rewrite (chars_at_char (if isNaN (charCodeAt str (i + 2)) then _ else _)).
  2: { destruct (isNaN (charCodeAt str (i + 2))); [lia|].
       apply index4_range. apply toInt32_byte; assumption. }
  reflexivity.
Qed.

(** The output so far is a prefix of the result of the loop. *)
Lemma btoa_loop_output (fuel : nat) (str : list Z) (i : nat) (output : string) :
  btoa_loop fuel str i output = output +:+ btoa_loop fuel str i EmptyString.
Proof.
  revert i output. induction fuel as [|fuel IH]; intros i output; cbn [btoa_loop].
  - symmetry. apply append_nil_r.
  - destruct (i <? length str)%nat; [|symmetry; apply append_nil_r].
    rewrite IH, (IH _ (EmptyString +:+ _)). rewrite append_assoc. reflexivity.
Qed.

(** Past a first group of three code units the loop runs as on the rest. *)
Lemma btoa_loop_skip (fuel : nat) (x y z : Z) (rest : list Z) (i : nat) :
  btoa_loop fuel (x :: y :: z :: rest) (i + 3) EmptyString
  = btoa_loop fuel rest i EmptyString.
Proof.
  revert i. induction fuel as [|fuel IH]; intros i; cbn [btoa_loop]; [reflexivity|].
  assert (Hlt : (i + 3 <? length (x :: y :: z :: rest))%nat = (i <? length rest)%nat).
  { cbn [length]. destruct (Nat.ltb_spec i (length rest));
      destruct (Nat.ltb_spec (i + 3) (S (S (S (length rest))))); lia || reflexivity. }
  rewrite Hlt. destruct (i <? length rest)%nat; [|reflexivity].
  rewrite btoa_loop_output, (btoa_loop_output _ rest). rewrite IH. f_equal. f_equal.
  unfold btoa_group, charCodeAt.
  replace (i + 3 + 1)%nat with (S (S (S (i + 1)))) by lia.
  replace (i + 3 + 2)%nat with (S (S (S (i + 2)))) by lia.
  replace (i + 3)%nat with (S (S (S i))) by lia.
  reflexivity.
Qed.

Lemma rounds_le (n : nat) : ((n + 2) / 3 ≤ n)%nat.
Proof.
  pose proof (Nat.div_mod_eq (n + 2) 3). pose proof (Nat.mod_upper_bound (n + 2) 3). lia.
Qed.

Lemma btoa_cons3 (x y z : Z) (rest : list Z) :
  btoa (x :: y :: z :: rest) = btoa_group (x :: y :: z :: rest) 0 +:+ btoa rest.
Proof.
  unfold btoa. cbn [length]. rewrite btoa_loop_S. cbn [Nat.ltb Nat.leb length].
  rewrite btoa_loop_output.
  rewrite (btoa_loop_skip _ x y z rest 0).
  change (EmptyString +:+ btoa_group (x :: y :: z :: rest) 0)
    with (btoa_group (x :: y :: z :: rest) 0).
  f_equal.
  pose proof (rounds_le (length rest)) as Hrounds.
  rewrite btoa_loop_enough by (rewrite Nat.sub_0_r; lia).
  apply btoa_loop_enough. rewrite Nat.sub_0_r. exact Hrounds.
Qed.

(** Lists three elements at a time. *)
Lemma list_ind3 {A} (P : list A → Prop) :
  P [] → (∀ x, P [x]) → (∀ x y, P [x; y]) →
  (∀ x y z rest, P rest → P (x :: y :: z :: rest)) →
  ∀ l, P l.
Proof.
  intros Hnil Hone Htwo Hstep.
  assert (Hall : ∀ l, P l ∧ (∀ x, P (x :: l)) ∧ (∀ x y, P (x :: y :: l))).
  { induction l as [|z l (IH0 & IH1 & IH2)].
    - auto.
    - repeat split; auto. }
  intros l. apply Hall.
Qed.

Lemma length_cons3_mod {A} (x y z : A) (rest : list A) :
  (length (x :: y :: z :: rest) mod 3 = length rest mod 3)%nat.
Proof.
  cbn [length]. replace (S (S (S (length rest)))) with (length rest + 1 * 3)%nat by lia.
  apply Nat.Div0.mod_add.
Qed.

Ltac div_lia := Z.div_mod_to_equations; lia.

(** The encodings of one, two and three bytes. *)
Lemma btoa_one (x : Z) :
  0 ≤ x < 256 →
  btoa [x] = String (char_of (x / 4)) (String (char_of (x mod 4 * 16)) "==").
Proof.
  intros Hx. change (btoa [x]) with (btoa_group [x] 0).
  rewrite group_bytes by (repeat constructor; lia).
  cbn [charCodeAt lookup list_lookup toInt32 default isNaN Nat.add]. unfold id.
  rewrite index1_value, index2_value by lia.
  change (0 / 16) with 0. rewrite Z.add_0_r. reflexivity.
Qed.

Lemma btoa_two (x y : Z) :
  0 ≤ x < 256 → 0 ≤ y < 256 →
  btoa [x; y]
  = String (char_of (x / 4))
      (String (char_of (x mod 4 * 16 + y / 16)) (String (char_of (y mod 16 * 4)) "=")).
Proof.
  intros Hx Hy. change (btoa [x; y]) with (btoa_group [x; y] 0).
  rewrite group_bytes by (repeat constructor; lia).
  cbn [charCodeAt lookup list_lookup toInt32 default isNaN Nat.add]. unfold id.
  rewrite index1_value, index2_value, index3_value by lia.
  change (0 / 64) with 0. rewrite Z.add_0_r. reflexivity.
Qed.

Lemma group_three (x y z : Z) (rest : list Z) :
  0 ≤ x < 256 → 0 ≤ y < 256 → 0 ≤ z < 256 →
  btoa_group (x :: y :: z :: rest) 0
  = String (char_of (x / 4))
      (String (char_of (x mod 4 * 16 + y / 16))
         (String (char_of (y mod 16 * 4 + z / 64))
            (String (char_of (z mod 64)) EmptyString))).
Proof.
  intros Hx Hy Hz.
  change (btoa_group (x :: y :: z :: rest) 0) with (btoa_group [x; y; z] 0).
  rewrite group_bytes by (repeat constructor; lia).
  cbn [charCodeAt lookup list_lookup toInt32 default isNaN Nat.add]. unfold id.
  rewrite index1_value, index2_value, index3_value, index4_value by lia.
  reflexivity.
Qed.

Lemma has_char_cons (c a : ascii) (s : string) :
  has_char c (String a s) = true → c = a ∨ has_char c s = true.
Proof.
  cbn [has_char]. destruct (Ascii.eqb_spec a c) as [->|]; [auto|].
  cbn. auto.
Qed.

Lemma pad_in_chars : has_char "=" chars = true.
Proof. reflexivity. Qed.

(** [btoa] of a concatenation: when the first part is a whole number of
    groups of three code units, the encoding of the whole is the encoding of
    the first part followed by the encoding of the second.  This holds for
    every code unit, byte or not. *)
Theorem btoa_app (str1 str2 : list Z) :
  (length str1 mod 3 = 0)%nat →
  btoa (str1 ++ str2) = btoa str1 +:+ btoa str2.
Proof.
  induction str1 as [|x|x y|x y z rest IH] using list_ind3; intros Hmod.
  - reflexivity.
  - discriminate.
  - discriminate.
  - rewrite length_cons3_mod in Hmod.
    change ((x :: y :: z :: rest) ++ str2)%list with (x :: y :: z :: (rest ++ str2))%list.
    rewrite !btoa_cons3, IH by assumption.
    rewrite append_assoc. reflexivity.
Qed.

(** On byte values the output of [btoa] is made of characters of [chars]
    only.  The padding sign stands nowhere when the length is a multiple of
    three, and otherwise only at the end: twice after a rest of one byte, once
    after a rest of two. *)
Theorem btoa_alphabet_and_padding (str : list Z) :
  Forall (fun c => 0 ≤ c < 256) str →
  (∀ c, has_char c (btoa str) = true → has_char c chars = true)
  ∧ ((length str mod 3 = 0)%nat → has_char "=" (btoa str) = false)
  ∧ ((length str mod 3 = 1)%nat →
     ∃ body, btoa str = body +:+ "==" ∧ has_char "=" body = false)
  ∧ ((length str mod 3 = 2)%nat →
     ∃ body, btoa str = body +:+ "=" ∧ has_char "=" body = false).
Proof.
  induction str as [|x|x y|x y z rest IH] using list_ind3; intros Hbytes.
  - split; [|split; [|split]].
    + intros c Hc. discriminate.
    + reflexivity.
    + intros Hmod. discriminate.
    + intros Hmod. discriminate.
  - inversion Hbytes as [|? ? Hx _]; subst.
    rewrite btoa_one by assumption.
    assert (H1 : 0 ≤ x / 4 < 64) by div_lia.
    assert (H2 : 0 ≤ x mod 4 * 16 < 64) by div_lia.
    split; [|split; [|split]].
    + intros c Hc.
      apply has_char_cons in Hc as [->|Hc]; [apply char_of_in_chars; lia|].
      apply has_char_cons in Hc as [->|Hc]; [apply char_of_in_chars; lia|].
      apply has_char_cons in Hc as [->|Hc]; [apply pad_in_chars|].
      apply has_char_cons in Hc as [->|Hc]; [apply pad_in_chars | discriminate].
    + intros Hmod. discriminate.
    + intros _. eexists (String _ (String _ EmptyString)). split; [reflexivity|].
      cbn [has_char]. rewrite !char_of_pad by lia. reflexivity.
    + intros Hmod. discriminate.
  - inversion Hbytes as [|? ? Hx Hrest]; subst.
    inversion Hrest as [|? ? Hy _]; subst.
    rewrite btoa_two by assumption.
    assert (H1 : 0 ≤ x / 4 < 64) by div_lia.
    assert (H2 : 0 ≤ x mod 4 * 16 + y / 16 < 64) by div_lia.
    assert (H3 : 0 ≤ y mod 16 * 4 < 64) by div_lia.
    split; [|split; [|split]].
    + intros c Hc.
      apply has_char_cons in Hc as [->|Hc]; [apply char_of_in_chars; lia|].
      apply has_char_cons in Hc as [->|Hc]; [apply char_of_in_chars; lia|].
      apply has_char_cons in Hc as [->|Hc]; [apply char_of_in_chars; lia|].
      apply has_char_cons in Hc as [->|Hc]; [apply pad_in_chars | discriminate].
    + intros Hmod. discriminate.
    + intros Hmod. discriminate.
    + intros _. eexists (String _ (String _ (String _ EmptyString))).
      split; [reflexivity|].
      cbn [has_char]. rewrite !char_of_pad by lia. reflexivity.
  - inversion Hbytes as [|? ? Hx Hrest1]; subst.
    inversion Hrest1 as [|? ? Hy Hrest2]; subst.
    inversion Hrest2 as [|? ? Hz Hrest]; subst.
    destruct (IH Hrest) as (IHin & IH0 & IH1 & IH2).
    rewrite btoa_cons3, group_three by assumption.
    rewrite length_cons3_mod.
    assert (H1 : 0 ≤ x / 4 < 64) by div_lia.
    assert (H2 : 0 ≤ x mod 4 * 16 + y / 16 < 64) by div_lia.
    assert (H3 : 0 ≤ y mod 16 * 4 + z / 64 < 64) by div_lia.
    assert (H4 : 0 ≤ z mod 64 < 64) by div_lia.
    rewrite !append_cons. change (EmptyString +:+ btoa rest) with (btoa rest).
    split; [|split; [|split]].
    + intros c Hc.
      apply has_char_cons in Hc as [->|Hc]; [apply char_of_in_chars; lia|].
      apply has_char_cons in Hc as [->|Hc]; [apply char_of_in_chars; lia|].
      apply has_char_cons in Hc as [->|Hc]; [apply char_of_in_chars; lia|].
      apply has_char_cons in Hc as [->|Hc]; [apply char_of_in_chars; lia|].
      apply IHin. exact Hc.
    + intros Hmod. cbn [has_char]. rewrite !char_of_pad by lia.
      cbn [orb]. apply IH0. exact Hmod.
    + intros Hmod. destruct (IH1 Hmod) as (body & -> & Hbody).
      eexists (String _ (String _ (String _ (String _ body)))).
      split; [reflexivity|].
      cbn [has_char]. rewrite !char_of_pad by lia. exact Hbody.
    + intros Hmod. destruct (IH2 Hmod) as (body & -> & Hbody).
      eexists (String _ (String _ (String _ (String _ body)))).
      split; [reflexivity|].
      cbn [has_char]. rewrite !char_of_pad by lia. exact Hbody.
Qed.

Lemma pad_not_char (i : Z) : 0 ≤ i < 64 → "="%char ≠ char_of i.
Proof.
  intros Hi Heq. pose proof (char_of_pad i Hi) as Hpad.
  rewrite <- Heq in Hpad. discriminate.
Qed.

Lemma btoa_three (x y z : Z) (rest : list Z) :
  0 ≤ x < 256 → 0 ≤ y < 256 → 0 ≤ z < 256 →
  btoa (x :: y :: z :: rest)
  = String (char_of (x / 4))
      (String (char_of (x mod 4 * 16 + y / 16))
         (String (char_of (y mod 16 * 4 + z / 64))
            (String (char_of (z mod 64)) (btoa rest)))).
Proof.
  intros Hx Hy Hz. rewrite btoa_cons3, group_three by assumption. reflexivity.
Qed.

(** [btoa] loses nothing on byte values: two byte strings with the same
    encoding are the same string, so the encoding can be decoded. *)
Theorem btoa_injective (str1 str2 : list Z) :
  Forall (fun c => 0 ≤ c < 256) str1 →
  Forall (fun c => 0 ≤ c < 256) str2 →
  btoa str1 = btoa str2 →
  str1 = str2.
Proof.
  revert str2.
  induction str1 as [|x|x y|x y z rest IH] using list_ind3;
    intros str2 Hb1 Hb2 Heq;
    destruct str2 as [|x' [|y' [|z' rest']]];
    repeat match goal with
           | H : Forall _ (_ :: _) |- _ =>
               let Hhd := fresh "Hbyte" in
               let Htl := fresh "Hrest" in
               apply Forall_cons in H as [Hhd Htl]
           end;
    rewrite ?btoa_one, ?btoa_two, ?btoa_three in Heq by assumption;
    try reflexivity; try discriminate;
    repeat match goal with
           | H : String _ _ = String _ _ |- _ =>
               let Hc := fresh "Hchar" in
               injection H as Hc H
           end;
    try match goal with
        | H : "="%char = char_of _ |- _ => apply pad_not_char in H; [contradiction | div_lia]
        | H : char_of _ = "="%char |- _ =>
            symmetry in H; apply pad_not_char in H; [contradiction | div_lia]
        end;
    repeat match goal with
           | H : char_of _ = char_of _ |- _ => apply char_of_inj in H; [|div_lia|div_lia]
           end.
  - f_equal. div_lia.
  - f_equal; [|f_equal]; div_lia.
  - assert (rest = rest') as -> by (apply IH; assumption).
    f_equal; [|f_equal; [|f_equal]]; div_lia.
Qed.

Lemma get_beyond (s : string) (n : nat) :
  (String.length s ≤ n)%nat → String.get n s = None.
Proof.
  revert n. induction s as [|c s IH]; intros n Hn; [destruct n; reflexivity|].
  destruct n as [|n]; cbn in *; [lia|]. apply IH. lia.
Qed.

Lemma chars_at_cases (index : Z) :
  chars_at index = Undefined ∨ ∃ c, chars_at index = Str (String c EmptyString).
Proof.
  unfold chars_at. destruct (index <? 0); [auto|].
  destruct (String.get (Z.to_nat index) chars); eauto.
Qed.

(** [btoa] does not refuse a character that is no byte.  When the first code
    unit is 260 or more, its first index is past the end of [chars], and the
    output starts with the text undefined or the text NaN instead of a
    character of the alphabet. *)
Theorem btoa_beyond_bytes_starts_with_text (a : Z) (rest : list Z) :
  260 ≤ a →
  ∃ tail, btoa (a :: rest) = "undefined" +:+ tail ∨ btoa (a :: rest) = "NaN" +:+ tail.
Proof.
  intros Ha.
  assert (Hgroup : ∃ t, btoa_group (a :: rest) 0 = "undefined" +:+ t
                        ∨ btoa_group (a :: rest) 0 = "NaN" +:+ t).
  { unfold btoa_group. cbv zeta.
    assert (H1 : chars_at (Z.shiftr (toInt32 (charCodeAt (a :: rest) 0)) 2) = Undefined).
    { cbn [charCodeAt lookup list_lookup toInt32 default]. unfold id.
      rewrite index1_value. unfold chars_at.
      destruct (Z.ltb_spec (a / 4) 0) as [|_]; [reflexivity|].
      rewrite get_beyond; [reflexivity|].
      change (String.length chars) with 65%nat. div_lia. }
    rewrite H1.
    destruct (chars_at_cases (Z.lor (Z.shiftl (Z.land (toInt32 (charCodeAt (a :: rest) 0)) 3) 4)
                                (Z.shiftr (toInt32 (charCodeAt (a :: rest) (0 + 1))) 4)))
      as [-> | [c2 ->]];
    destruct (chars_at_cases
                (if isNaN (charCodeAt (a :: rest) (0 + 1)) then 64
                 else Z.lor (Z.shiftl (Z.land (toInt32 (charCodeAt (a :: rest) (0 + 1))) 15) 2)
                        (Z.shiftr (toInt32 (charCodeAt (a :: rest) (0 + 2))) 6)))
      as [-> | [c3 ->]];
    destruct (chars_at_cases
                (if isNaN (charCodeAt (a :: rest) (0 + 2)) then 64
                 else Z.land (toInt32 (charCodeAt (a :: rest) (0 + 2))) 63))
      as [-> | [c4 ->]];
    cbn [js_add addend_text]; eexists; (left; reflexivity) || (right; reflexivity). }
  destruct Hgroup as [t Ht].
  assert (Hout : btoa (a :: rest)
                 = btoa_group (a :: rest) 0
                   +:+ btoa_loop (length rest) (a :: rest) 3 EmptyString).
  { unfold btoa. cbn [length]. rewrite btoa_loop_S. cbn [Nat.ltb Nat.leb length].
    rewrite btoa_loop_output. reflexivity. }
  rewrite Hout.
  destruct Ht as [-> | ->]; eexists; [left | right]; rewrite append_assoc; reflexivity.
Qed.

Lemma btoa_app_witness :
  btoa ([77; 97; 110] ++ [77; 97]) = btoa [77; 97; 110] +:+ btoa [77; 97].
Proof. apply (btoa_app [77; 97; 110] [77; 97]). reflexivity. Defined.

Lemma btoa_alphabet_and_padding_witness :
  ∃ body, btoa [77; 97] = body +:+ "=" ∧ has_char "=" body = false.
Proof.
  destruct (btoa_alphabet_and_padding [77; 97]) as (_ & _ & _ & Htwo).
  - repeat (constructor; [lia|]). constructor.
  - apply Htwo. reflexivity.
Defined.

Lemma btoa_injective_witness : [70 + 7; 97; 110] = [77; 90 + 7; 110].
Proof.
  apply (btoa_injective [70 + 7; 97; 110] [77; 90 + 7; 110]).
  - repeat (constructor; [lia|]). constructor.
  - repeat (constructor; [lia|]). constructor.
  - reflexivity.
Defined.

Lemma btoa_beyond_bytes_starts_with_text_witness :
  ∃ tail, btoa [300; 65] = "undefined" +:+ tail ∨ btoa [300; 65] = "NaN" +:+ tail.
Proof. apply (btoa_beyond_bytes_starts_with_text 300 [65]). lia. Defined.

End ClientMore.
